(** * Quadratic primes (Project Euler 27): the prime cache and the search

    A shallow embedding of [main.py]: the incremental prime oracle
    [is_prime] with its process-wide cache ([PRIME_LIST], [PRIME_SET],
    [HIGHEST_CHECKED]), the run-length evaluator [get_x_max] and the
    bounded search [main].

    Modelling conventions.
    - Python integers are [Z]; [%] with a positive divisor is [Z.modulo];
      [floor(sqrt(y))] is the integer square root [Z.sqrt y] (the float
      square root is exact below 2^52, far beyond what a sieve that stores
      every prime it finds can reach).
    - The three globals are one record [cache], threaded explicitly through
      every call: a call takes the cache and returns the new one.
    - [for ... in range(...)] loops recurse on the number of iterations;
      [while] loops take a [fuel] that bounds the number of times the loop
      body is re-entered, and give [Timeout] when it runs out.
    - Exceptions are the constructor [Raise] of [result]; nothing in the
      source catches one, so every loop passes a [Raise] on unchanged. *)

From Stdlib Require Import ZArith Lia Znumtheory.
From stdpp Require Import base tactics option list sets gmap sorting.

Open Scope Z_scope.

(** ** Python values and outcomes *)

(** The arguments of [get_x_max] and [main] are checked with
    [type(v) == int]; [bool] is a subclass of [int] but its [type] is not
    [int], so only [PyInt] passes. *)
Inductive pyobj : Type :=
  | PyInt (z : Z)
  | PyBool (b : bool)
  | PyFloat (mantissa exponent : Z)
  | PyStr (s : list nat)
  | PyNone.

Definition type_is_int (v : pyobj) : bool :=
  match v with PyInt _ => true | _ => false end.

Inductive exn : Type := AssertionError | IndexError.

Inductive result (A : Type) : Type :=
  | Ok (a : A)
  | Raise (e : exn)
  | Timeout.
Arguments Ok {A} a.
Arguments Raise {A} e.
Arguments Timeout {A}.

(** ** The prime cache *)

Record cache : Type := Cache {
  PRIME_LIST : list Z;
  PRIME_SET : gset Z;
  HIGHEST_CHECKED : Z
}.

(** The module-level initialisation: [PRIME_LIST = []], [PRIME_SET = set()],
    [HIGHEST_CHECKED = 1]. *)
Definition init_cache : cache := Cache [] ∅ 1.

(** The inner [while] of [is_prime], on the part [PRIME_LIST[i:]] of the
    list that is still to be scanned: it stops with [include_y = True] at the
    end of the list or at the first [p >= y_mid], and with
    [include_y = False] at the first [p] dividing [y]. *)
Fixpoint include_y (ps : list Z) (y y_mid : Z) : bool :=
  match ps with
  | [] => true
  | p :: ps' =>
      if p <? y_mid then
        if y mod p =? 0 then false else include_y ps' y y_mid
      else true
  end.

(** One iteration of [for y in range(HIGHEST_CHECKED+1, x+1)]. *)
Definition check_y (c : cache) (y : Z) : cache :=
  let y_mid := Z.sqrt y + 1 in
  if include_y (PRIME_LIST c) y y_mid then
    {| PRIME_LIST := PRIME_LIST c ++ [y];
       PRIME_SET := {[y]} ∪ PRIME_SET c;
       HIGHEST_CHECKED := HIGHEST_CHECKED c |}
  else c.

(** [extend k y c]: the iterations for [y, y+1, ..., y+k-1]. *)
Fixpoint extend (k : nat) (y : Z) (c : cache) : cache :=
  match k with
  | O => c
  | S k' => extend k' (y + 1) (check_y c y)
  end.

Definition set_highest (x : Z) (c : cache) : cache :=
  {| PRIME_LIST := PRIME_LIST c;
     PRIME_SET := PRIME_SET c;
     HIGHEST_CHECKED := x |}.

Definition is_prime (x : Z) (c : cache) : bool * cache :=
  if x <? 2 then (false, c)
  else
    let c' :=
      if HIGHEST_CHECKED c <? x then
        set_highest x
          (extend (Z.to_nat (x - HIGHEST_CHECKED c)) (HIGHEST_CHECKED c + 1) c)
      else c in
    (bool_decide (x ∈ PRIME_SET c'), c').

(** ** The run-length evaluator *)

Definition poly (a b x : Z) : Z := x ^ 2 + a * x + b.

(** The [while True] loop of [get_x_max], entered with the current [x]. *)
Fixpoint get_x_max_loop (fuel : nat) (a b x : Z) (c : cache)
  : result (Z * cache) :=
  let val := poly a b x in
  let (r, c') := is_prime val c in
  if r then
    match fuel with
    | O => Timeout
    | S fuel' => get_x_max_loop fuel' a b (x + 1) c'
    end
  else Ok (x - 1, c').

Definition get_x_max (fuel : nat) (a b : pyobj) (c : cache)
  : result (Z * cache) :=
  match a with
  | PyInt a' =>
      match b with
      | PyInt b' => get_x_max_loop fuel a' b' 0 c
      | _ => Raise AssertionError
      end
  | _ => Raise AssertionError
  end.

(** ** The bounded search *)

Definition best_t : Type := Z * Z * Z.

(** [if x > x_max: a_max, b_max, x_max = a, b, x]. *)
Definition record_best (best : best_t) (a b x : Z) : best_t :=
  let '(_, _, x_max) := best in
  if x_max <? x then (a, b, x) else best.

(** [for a in range(a, a + 2*k, 2)]: the [k] remaining iterations. *)
Fixpoint a_loop (fuel : nat) (k : nat) (a b : Z) (best : best_t) (c : cache)
  : result (best_t * cache) :=
  match k with
  | O => Ok (best, c)
  | S k' =>
      match get_x_max fuel (PyInt a) (PyInt b) c with
      | Ok (x, c') => a_loop fuel k' (a + 2) b (record_best best a b x) c'
      | Raise e => Raise e
      | Timeout => Timeout
      end
  end.

(** The number of elements of [range(lo, hi, 2)]. *)
Definition range2_len (lo hi : Z) : nat := Z.to_nat ((hi - lo + 1) / 2).

(** The [while PRIME_LIST[i_b] < n] loop.  The subscript is evaluated first:
    past the end of the list it raises [IndexError]. *)
Fixpoint b_loop (fuel : nat) (g : nat) (n : Z) (i_b : nat) (best : best_t)
    (c : cache) : result (best_t * cache) :=
  match PRIME_LIST c !! i_b with
  | None => Raise IndexError
  | Some b =>
      if b <? n then
        match g with
        | O => Timeout
        | S g' =>
            let a_lo := 1 - b in
            let a_lo := a_lo + (if a_lo mod 2 =? 0 then 1 else 0) in
            match a_loop fuel (range2_len a_lo n) a_lo b best c with
            | Ok (best', c') => b_loop fuel g' n (S i_b) best' c'
            | Raise e => Raise e
            | Timeout => Timeout
            end
        end
      else Ok (best, c)
  end.

Definition main (fuel : nat) (n : pyobj) (c : cache)
  : result (best_t * cache) :=
  match n with
  | PyInt n' =>
      if 0 <? n' then
        let (_, c1) := is_prime (n' - 1) c in
        b_loop fuel fuel n' 0%nat (-1, -1, -1) c1
      else Raise AssertionError
  | _ => Raise AssertionError
  end.

(** ** Specification vocabulary *)

(** The textbook definition: at least 2 and no positive divisor other than
    1 and itself. *)
Definition prime_number (x : Z) : Prop :=
  2 ≤ x ∧ ∀ d, 0 < d → (d | x) → d = 1 ∨ d = x.

(** [n^2 + a*n + b] is prime for every [0 <= n' <= n]. *)
Definition all_prime_upto (a b n : Z) : Prop :=
  ∀ n', 0 ≤ n' ≤ n → prime_number (poly a b n').

(** [h] is a watermark for the list and the set: the list holds exactly the
    primes of [[2, h]], strictly ascending, and the set mirrors the list. *)
Record sieved (h : Z) (c : cache) : Prop := {
  sieved_ascending : StronglySorted Z.lt (PRIME_LIST c);
  sieved_exact : ∀ x, x ∈ PRIME_LIST c ↔ prime_number x ∧ x ≤ h;
  sieved_mirror : ∀ x, x ∈ PRIME_SET c ↔ x ∈ PRIME_LIST c
}.

Definition cache_inv (c : cache) : Prop :=
  1 ≤ HIGHEST_CHECKED c ∧ sieved (HIGHEST_CHECKED c) c.

(** The cache states a process can be in: the initial one, and the one left
    by a call of [is_prime] in such a state. *)
Inductive reachable : cache → Prop :=
  | reachable_init : reachable init_cache
  | reachable_call x c : reachable c → reachable (is_prime x c).2.

(** A sequence of queries, each answered in the cache left by the one
    before; the answers are paired with the queried values. *)
Fixpoint query_all (qs : list Z) (c : cache) : list (Z * bool) * cache :=
  match qs with
  | [] => ([], c)
  | x :: qs' =>
      let (r, c1) := is_prime x c in
      let (rs, c2) := query_all qs' c1 in
      ((x, r) :: rs, c2)
  end.

(** The pairs the search visits for the bound [n]: [b] a prime below [n],
    [a] odd with [1 - b <= a < n]. *)
Definition candidate (n a b : Z) : Prop :=
  prime_number b ∧ b < n ∧ Z.odd a = true ∧ 1 - b ≤ a < n.

(** The order of the visits: [b] ascending, then [a] ascending. *)
Definition visited_before (a b a' b' : Z) : Prop :=
  b < b' ∨ (b = b' ∧ a < a').

(** Where the run of primes of [n^2 + a*n + b] is sure to have ended. *)
Definition run_bound (a b : Z) : Z := (Z.abs a + 1) * Z.abs b.

(** The state of the best triple when the search is about to visit
    [(a0, b0)]: either nothing was visited and it is still the sentinel, or
    it is a visited candidate with its run of primes; no visited candidate
    has a longer run, and one with an equal run was visited later. *)
Definition best_upto (n a0 b0 : Z) (best : best_t) : Prop :=
  let '(a_max, b_max, x_max) := best in
  ((best = (-1, -1, -1) ∧
      ∀ a b, candidate n a b → ¬ visited_before a b a0 b0) ∨
   (0 ≤ x_max ∧ candidate n a_max b_max ∧
      visited_before a_max b_max a0 b0 ∧ all_prime_upto a_max b_max x_max)) ∧
  ∀ a b, candidate n a b → visited_before a b a0 b0 →
    (∀ m, 0 ≤ m → all_prime_upto a b m → m ≤ x_max) ∧
    (all_prime_upto a b x_max →
       (a, b) = (a_max, b_max) ∨ visited_before a_max b_max a b).

(** The same once every candidate was visited. *)
Definition search_result (n : Z) (best : best_t) : Prop :=
  let '(a_max, b_max, x_max) := best in
  ((best = (-1, -1, -1) ∧ ∀ a b, ¬ candidate n a b) ∨
   (0 ≤ x_max ∧ candidate n a_max b_max ∧
      all_prime_upto a_max b_max x_max)) ∧
  ∀ a b, candidate n a b →
    (∀ m, 0 ≤ m → all_prime_upto a b m → m ≤ x_max) ∧
    (all_prime_upto a b x_max →
       (a, b) = (a_max, b_max) ∨ visited_before a_max b_max a b).

(** ** The command-line block *)

(** The rows of the table printed by the [__main__] block: for every [ind]
    of [range(x_highest + 1)], the pair of [ind] and
    [ind**2 + a_best * ind + b_best] handed to [format]. *)
Definition table_rows (a_best b_best x_highest : Z) : list (Z * Z) :=
  (λ ind, (ind, ind ^ 2 + a_best * ind + b_best)) <$> seqZ 0 (x_highest + 1).

(** The block after [num = int(input(...))]: the call of [main] and the
    values the prints are given, that is the triple, the rows of the table
    and the product [a_best * b_best].  A failure of [main] is not caught. *)
Definition report (fuel : nat) (num : Z) (c : cache)
  : result (best_t * list (Z * Z) * Z * cache) :=
  match main fuel (PyInt num) c with
  | Ok ((a_best, b_best, x_highest), c') =>
      Ok ((a_best, b_best, x_highest),
          table_rows a_best b_best x_highest,
          a_best * b_best, c')
  | Raise e => Raise e
  | Timeout => Timeout
  end.

(** ** Primes between [m] and [2m] *)

(** Every [m] of [[2, bound)] has a prime [p] with [m < p <= 2m]. *)
Definition prime_gaps_upto (bound : Z) : Prop :=
  ∀ m, 2 ≤ m < bound → ∃ p, prime_number p ∧ m < p ≤ 2 * m.

(** A chain of primes, each at most twice the one before. *)
Definition doubling_chain : list Z :=
  [2; 3; 5; 7; 13; 23; 43; 83; 163; 317; 631; 1259; 2503; 5003; 9973].

(** The largest bound for which the chain gives [prime_gaps_upto]. *)
Definition search_limit : Z := 9973.

Fixpoint doubling (p : Z) (l : list Z) : bool :=
  match l with
  | [] => true
  | q :: l' => (p <? q) && (q <=? 2 * p) && doubling q l'
  end.

(** * Primes *)

Lemma prime_number_iff (x : Z) : prime_number x ↔ prime x.
Proof.
  rewrite <- prime_alt. unfold prime_number, Z.prime. split.
  - intros [H2 Hd]. split; [lia|]. intros n Hn Hdiv.
    destruct (Hd n ltac:(lia) Hdiv); lia.
  - intros [H1 Hd]. split; [lia|]. intros d Hpos Hdiv.
    assert (d ≤ x) by (apply Z.divide_pos_le; [lia|done]).
    destruct (decide (d = 1)) as [|Hne1]; [by left|].
    destruct (decide (d = x)) as [|Hnex]; [by right|].
    exfalso. apply (Hd d); [lia|done].
Qed.

Lemma prime_number_dec (x : Z) : prime_number x ∨ ¬ prime_number x.
Proof.
  rewrite prime_number_iff. destruct (prime_dec x); [by left|by right].
Qed.

Lemma prime_number_ge_2 (x : Z) : prime_number x → 2 ≤ x.
Proof. by intros [? _]. Qed.

Lemma not_prime_number_divisor (x : Z) :
  2 ≤ x → ¬ prime_number x → ∃ d, 1 < d < x ∧ (d | x).
Proof.
  intros Hx Hnp. apply not_prime_divide; [lia|]. by rewrite <- prime_number_iff.
Qed.

Lemma composite_not_prime (d e : Z) : 1 < d → 1 < e → ¬ prime_number (d * e).
Proof.
  intros Hd He [_ Hp].
  assert (Hdiv : (d | d * e)) by (exists e; lia).
  destruct (Hp d ltac:(lia) Hdiv); [lia | nia].
Qed.

Lemma prime_divisor_exists (x : Z) :
  2 ≤ x → ∃ p, prime_number p ∧ (p | x) ∧ p ≤ x.
Proof.
  intros Hx. assert (H0 : 0 ≤ x) by lia. revert Hx. pattern x.
  revert x H0. apply Z_lt_induction. intros x IH Hx.
  destruct (prime_number_dec x) as [Hp|Hnp].
  - exists x. by split; [|split].
  - destruct (not_prime_number_divisor x Hx Hnp) as (d & Hd & Hdiv).
    destruct (IH d ltac:(lia) ltac:(lia)) as (p & Hp & Hpd & Hle).
    exists p. split; [done|]. split; [by etrans|lia].
Qed.

Lemma sqrt_lt_self (y : Z) : 2 ≤ y → Z.sqrt y < y.
Proof. intros. apply Z.sqrt_lt_lin. lia. Qed.

(** The sieve criterion: [y >= 2] is prime iff no prime up to its integer
    square root divides it. *)
Lemma prime_number_sqrt (y : Z) :
  2 ≤ y →
  prime_number y ↔ ∀ p, prime_number p → p ≤ Z.sqrt y → ¬ (p | y).
Proof.
  intros Hy. pose proof (sqrt_lt_self y Hy) as Hlt. split.
  - intros [_ Hd] p [Hp2 _] Hle Hdiv.
    destruct (Hd p ltac:(lia) Hdiv); lia.
  - intros Hno. destruct (prime_number_dec y) as [|Hnp]; [done|exfalso].
    destruct (not_prime_number_divisor y Hy Hnp) as (d & Hd & [e He]).
    assert (1 < e) by nia.
    pose proof (Z.sqrt_spec y ltac:(lia)) as Hs. simpl in Hs.
    assert (Hsmall : ∃ k, 1 < k ∧ k ≤ Z.sqrt y ∧ (k | y)).
    { destruct (decide (d ≤ e)).
      - exists d. split; [lia|]. split; [nia|]. exists e. lia.
      - exists e. split; [lia|]. split; [nia|]. exists d. lia. }
    destruct Hsmall as (k & Hk1 & Hk2 & Hk3).
    destruct (prime_divisor_exists k ltac:(lia)) as (p & Hp & Hpk & Hpl).
    apply (Hno p Hp); [lia|]. by etrans.
Qed.

(** * The sieve *)

Lemma include_y_spec (ps : list Z) (y y_mid : Z) :
  StronglySorted Z.lt ps →
  (∀ p, p ∈ ps → 0 < p) →
  include_y ps y y_mid = true ↔ ∀ p, p ∈ ps → p < y_mid → ¬ (p | y).
Proof.
  induction ps as [|p ps IH]; intros Hsorted Hpos; simpl.
  - split; [|done]. intros _ p Hp. by apply elem_of_nil in Hp.
  - apply StronglySorted_cons in Hsorted as [Hall Hsorted].
    rewrite Forall_forall in Hall.
    assert (Hp0 : 0 < p) by (apply Hpos; left).
    specialize (IH Hsorted (λ q Hq, Hpos q (list_elem_of_further _ _ _ Hq))).
    destruct (Z.ltb_spec p y_mid) as [Hlt|Hge].
    + destruct (Z.eqb_spec (y mod p) 0) as [Hmod|Hmod].
      * split; [done|]. intros Hno. exfalso.
        apply (Hno p); [left|done|]. apply Z.mod_divide; [lia|done].
      * rewrite IH. split.
        -- intros Hno q Hq Hqlt. apply elem_of_cons in Hq as [->|Hq].
           ++ rewrite <- Z.mod_divide; [done|lia].
           ++ by apply Hno.
        -- intros Hno q Hq. apply Hno. by right.
    + split; [|done]. intros _ q Hq Hqlt.
      apply elem_of_cons in Hq as [->|Hq]; [lia|].
      specialize (Hall q Hq). lia.
Qed.

Lemma sieved_positive (h : Z) (c : cache) :
  sieved h c → ∀ p, p ∈ PRIME_LIST c → 0 < p.
Proof.
  intros Hs p Hp. apply (sieved_exact _ _ Hs) in Hp as [[? _] _]. lia.
Qed.

(** The trial division is exact on a cache sieved up to [y - 1]. *)
Lemma include_y_prime (c : cache) (y : Z) :
  2 ≤ y → sieved (y - 1) c →
  include_y (PRIME_LIST c) y (Z.sqrt y + 1) = true ↔ prime_number y.
Proof.
  intros Hy Hs.
  rewrite include_y_spec;
    [|apply (sieved_ascending _ _ Hs)|apply (sieved_positive _ _ Hs)].
  rewrite (prime_number_sqrt y Hy). pose proof (sqrt_lt_self y Hy). split.
  - intros Hno p Hp Hle. apply Hno; [|lia].
    apply (sieved_exact _ _ Hs). split; [done|lia].
  - intros Hno p Hp Hlt. apply Hno; [|lia].
    by apply (sieved_exact _ _ Hs) in Hp as [? _].
Qed.

Lemma check_y_sieved (c : cache) (y : Z) :
  2 ≤ y → sieved (y - 1) c → sieved y (check_y c y).
Proof.
  intros Hy Hs. pose proof (include_y_prime c y Hy Hs) as Hinc.
  unfold check_y. destruct (include_y _ _ _).
  - assert (Hp : prime_number y) by by apply Hinc.
    split; simpl.
    + apply StronglySorted_app_2.
      * intros x1 x2 Hx1 Hx2. apply list_elem_of_singleton in Hx2 as ->.
        apply (sieved_exact _ _ Hs) in Hx1. lia.
      * apply (sieved_ascending _ _ Hs).
      * repeat constructor.
    + intros x. rewrite elem_of_app, list_elem_of_singleton.
      rewrite (sieved_exact _ _ Hs). split.
      * intros [[? ?]| ->]; (split; [done|lia]).
      * intros [Hx Hle]. destruct (decide (x = y)) as [|]; [by right|].
        left. split; [done|lia].
    + intros x. rewrite elem_of_union, elem_of_singleton.
      rewrite (sieved_mirror _ _ Hs), elem_of_app, list_elem_of_singleton.
      tauto.
  - assert (Hnp : ¬ prime_number y) by (intros Hp; by apply Hinc in Hp).
    split.
    + apply (sieved_ascending _ _ Hs).
    + intros x. rewrite (sieved_exact _ _ Hs). split.
      * intros [? ?]. split; [done|lia].
      * intros [Hx Hle]. split; [done|].
        destruct (decide (x = y)) as [->|]; [done|lia].
    + apply (sieved_mirror _ _ Hs).
Qed.

Lemma check_y_prefix (c : cache) (y : Z) :
  PRIME_LIST c `prefix_of` PRIME_LIST (check_y c y).
Proof.
  unfold check_y. destruct (include_y _ _ _); simpl; [|done].
  by apply prefix_app_r.
Qed.

Lemma check_y_highest (c : cache) (y : Z) :
  HIGHEST_CHECKED (check_y c y) = HIGHEST_CHECKED c.
Proof. unfold check_y. by destruct (include_y _ _ _). Qed.

Lemma extend_sieved (k : nat) (y : Z) (c : cache) :
  2 ≤ y → sieved (y - 1) c → sieved (y - 1 + Z.of_nat k) (extend k y c).
Proof.
  revert y c. induction k as [|k IH]; intros y c Hy Hs; simpl extend.
  - by replace (y - 1 + Z.of_nat 0) with (y - 1) by lia.
  - replace (y - 1 + Z.of_nat (S k)) with ((y + 1) - 1 + Z.of_nat k) by lia.
    apply IH; [lia|]. replace (y + 1 - 1) with y by lia.
    by apply check_y_sieved.
Qed.

Lemma extend_prefix (k : nat) (y : Z) (c : cache) :
  PRIME_LIST c `prefix_of` PRIME_LIST (extend k y c).
Proof.
  revert y c. induction k as [|k IH]; intros y c; simpl; [done|].
  etrans; [apply check_y_prefix|apply IH].
Qed.

Lemma extend_highest (k : nat) (y : Z) (c : cache) :
  HIGHEST_CHECKED (extend k y c) = HIGHEST_CHECKED c.
Proof.
  revert y c. induction k as [|k IH]; intros y c; simpl; [done|].
  by rewrite IH, check_y_highest.
Qed.

(** * The oracle *)

Lemma cache_inv_init : cache_inv init_cache.
Proof.
  split; [done|]. split; simpl.
  - constructor.
  - intros x. split; [by intros ?%elem_of_nil|]. intros [[? _] ?]. lia.
  - intros x. split; [by intros ?%elem_of_empty|by intros ?%elem_of_nil].
Qed.

Lemma is_prime_lt_2 (x : Z) (c : cache) : x < 2 → is_prime x c = (false, c).
Proof. intros Hx. unfold is_prime. by destruct (Z.ltb_spec x 2); [|lia]. Qed.

Lemma is_prime_highest (x : Z) (c : cache) :
  HIGHEST_CHECKED (is_prime x c).2 =
    if x <? 2 then HIGHEST_CHECKED c else Z.max (HIGHEST_CHECKED c) x.
Proof.
  unfold is_prime. destruct (Z.ltb_spec x 2); [done|]. simpl.
  destruct (Z.ltb_spec (HIGHEST_CHECKED c) x); simpl; lia.
Qed.

Lemma is_prime_prefix (x : Z) (c : cache) :
  PRIME_LIST c `prefix_of` PRIME_LIST (is_prime x c).2.
Proof.
  unfold is_prime. destruct (Z.ltb_spec x 2); [done|]. simpl.
  destruct (Z.ltb_spec (HIGHEST_CHECKED c) x); simpl; [|done].
  apply extend_prefix.
Qed.

Lemma is_prime_inv (x : Z) (c : cache) :
  cache_inv c → cache_inv (is_prime x c).2.
Proof.
  intros [H1 Hs]. unfold is_prime. destruct (Z.ltb_spec x 2); [done|]. simpl.
  destruct (Z.ltb_spec (HIGHEST_CHECKED c) x) as [Hlt|Hge]; [|done].
  split; simpl; [lia|].
  pose proof (extend_sieved (Z.to_nat (x - HIGHEST_CHECKED c))
    (HIGHEST_CHECKED c + 1) c ltac:(lia)) as He.
  replace (HIGHEST_CHECKED c + 1 - 1) with (HIGHEST_CHECKED c) in He by lia.
  specialize (He Hs).
  replace (HIGHEST_CHECKED c + Z.of_nat (Z.to_nat (x - HIGHEST_CHECKED c)))
    with x
    in He by lia.
  destruct He as [Ha Hb Hc]. by split.
Qed.

Lemma is_prime_correct (x : Z) (c : cache) :
  cache_inv c → (is_prime x c).1 = true ↔ prime_number x.
Proof.
  intros Hinv. pose proof (is_prime_inv x c Hinv) as [_ Hs'].
  pose proof (is_prime_highest x c) as Hh.
  revert Hs' Hh. unfold is_prime. destruct (Z.ltb_spec x 2) as [Hlt|Hge].
  - intros _ _. simpl. split; [done|]. intros [? _]; lia.
  - cbv zeta. set (c' := if HIGHEST_CHECKED c <? x then _ else _).
    simpl. intros Hs' Hh. rewrite bool_decide_eq_true.
    rewrite (sieved_mirror _ _ Hs'), (sieved_exact _ _ Hs'). split.
    + by intros [? _].
    + intros Hp. split; [done|lia].
Qed.

Lemma reachable_inv (c : cache) : reachable c → cache_inv c.
Proof.
  induction 1 as [|x c _ IH]; [apply cache_inv_init|by apply is_prime_inv].
Qed.

Lemma query_all_spec (qs : list Z) (c : cache) :
  cache_inv c →
  ∀ x r, (x, r) ∈ (query_all qs c).1 ↔ x ∈ qs ∧ (r = true ↔ prime_number x).
Proof.
  revert c. induction qs as [|q qs IH]; intros c Hinv x r; simpl.
  - split; [by intros ?%elem_of_nil|]. by intros [?%elem_of_nil _].
  - pose proof (is_prime_correct q c Hinv) as Hq.
    pose proof (is_prime_inv q c Hinv) as Hinv'.
    destruct (is_prime q c) as [rq c1]. simpl in Hq, Hinv'.
    specialize (IH c1 Hinv' x r).
    destruct (query_all qs c1) as [rs c2]. simpl in *.
    rewrite !elem_of_cons, IH. split.
    + intros [Heq|[? ?]]; [|by split; [right|]].
      injection Heq as -> ->. split; [by left|done].
    + intros [[->|Hin] Hr]; [|by right].
      left. f_equal. destruct r, rq; try done.
      * symmetry. apply Hq. by apply Hr.
      * apply Hr. by apply Hq.
Qed.

(** * The run-length evaluator *)

Lemma poly_0 (a b : Z) : poly a b 0 = b.
Proof. unfold poly. lia. Qed.

Lemma get_x_max_loop_spec (fuel : nat) (a b x : Z) (c : cache) r c' :
  cache_inv c →
  get_x_max_loop fuel a b x c = Ok (r, c') →
  cache_inv c' ∧
  PRIME_LIST c `prefix_of` PRIME_LIST c' ∧
  HIGHEST_CHECKED c ≤ HIGHEST_CHECKED c' ∧
  x - 1 ≤ r ∧
  (∀ n, x ≤ n ≤ r → prime_number (poly a b n)) ∧
  ¬ prime_number (poly a b (r + 1)).
Proof.
  revert x c. induction fuel as [|fuel IH]; intros x c Hinv; simpl;
    pose proof (is_prime_correct (poly a b x) c Hinv) as Hcorr;
    pose proof (is_prime_inv (poly a b x) c Hinv) as Hinv1;
    pose proof (is_prime_prefix (poly a b x) c) as Hpre;
    pose proof (is_prime_highest (poly a b x) c) as Hhi;
    destruct (is_prime (poly a b x) c) as [[] c1]; simpl in *;
    intros Hrun; try discriminate.
  - injection Hrun as <- <-. replace (x - 1 + 1) with x by lia.
    split_and!; try done.
    + destruct (_ <? 2); lia.
    + intros n ?; lia.
    + intros Hp. by apply Hcorr in Hp.
  - apply IH in Hrun as (Hinv' & Hpre' & Hhi' & Hle & Hall & Hstop);
      [|done].
    split_and!; try done.
    + by etrans.
    + destruct (_ <? 2); lia.
    + lia.
    + intros n Hn. destruct (decide (n = x)) as [->|]; [by apply Hcorr|].
      apply Hall. lia.
  - injection Hrun as <- <-. replace (x - 1 + 1) with x by lia.
    split_and!; try done.
    + destruct (_ <? 2); lia.
    + intros n ?; lia.
    + intros Hp. by apply Hcorr in Hp.
Qed.

(** The loop stops as soon as a non-prime value lies [k] steps ahead and
    the fuel allows [k] re-entries. *)
Lemma get_x_max_loop_returns (k : nat) (a b : Z) :
  ∀ (fuel : nat) (x : Z) (c : cache),
    cache_inv c → (k ≤ fuel)%nat →
    ¬ prime_number (poly a b (x + Z.of_nat k)) →
    ∃ r c', get_x_max_loop fuel a b x c = Ok (r, c').
Proof.
  induction k as [|k IH]; intros fuel x c Hinv Hfuel Hnp.
  - replace (x + Z.of_nat 0) with x in Hnp by lia.
    pose proof (is_prime_correct (poly a b x) c Hinv) as Hcorr.
    destruct fuel; simpl; destruct (is_prime (poly a b x) c) as [[] c1];
      simpl in *; eauto; exfalso; by apply Hnp, Hcorr.
  - destruct fuel as [|fuel]; [lia|]. simpl.
    pose proof (is_prime_inv (poly a b x) c Hinv) as Hinv1.
    destruct (is_prime (poly a b x) c) as [[] c1]; simpl in *; [|eauto].
    apply IH; [done|lia|].
    by replace (x + 1 + Z.of_nat k) with (x + Z.of_nat (S k)) by lia.
Qed.

Lemma poly_not_prime_at_bound (a b : Z) :
  ∃ n, 0 ≤ n ≤ run_bound a b ∧ ¬ prime_number (poly a b n).
Proof.
  unfold run_bound. destruct (decide (b < 2)) as [Hb|Hb].
  - exists 0. split; [lia|]. rewrite poly_0. intros [? _]. lia.
  - exists ((Z.abs a + 1) * b). split; [lia|].
    set (k := Z.abs a + 1).
    replace (poly a b (k * b)) with (b * (k * k * b + a * k + 1))
      by (unfold poly; lia).
    apply composite_not_prime; [lia|].
    assert (Hk : k * (2 * k + a) ≤ k * k * b + a * k) by nia.
    assert (1 ≤ k * (2 * k + a)) by (subst k; nia).
    lia.
Qed.

Lemma get_x_max_spec (fuel : nat) (a b : Z) (c : cache) x c' :
  cache_inv c →
  get_x_max fuel (PyInt a) (PyInt b) c = Ok (x, c') →
  cache_inv c' ∧
  PRIME_LIST c `prefix_of` PRIME_LIST c' ∧
  -1 ≤ x ∧
  ∀ m, 0 ≤ m → all_prime_upto a b m ↔ m ≤ x.
Proof.
  intros Hinv Hrun. simpl in Hrun.
  apply get_x_max_loop_spec in Hrun
    as (Hinv' & Hpre & _ & Hle & Hall & Hstop); [|done].
  split_and!; [done|done|lia|]. intros m Hm. split.
  - intros Hup. destruct (decide (m ≤ x)) as [|Hgt]; [done|].
    exfalso. apply Hstop, Hup. lia.
  - intros Hmx n Hn. apply Hall. lia.
Qed.

(** * The search *)

Lemma sorted_lookup_lt (l : list Z) (i j : nat) (x y : Z) :
  StronglySorted Z.lt l → (i < j)%nat →
  l !! i = Some x → l !! j = Some y → x < y.
Proof.
  intros Hs. revert i j. induction Hs as [|z l Hs IH Hall];
    intros i j Hij Hi Hj; [done|].
  destruct j as [|j]; [lia|]. simpl in Hj. destruct i as [|i]; simpl in Hi.
  - injection Hi as ->. rewrite Forall_forall in Hall.
    apply Hall. by eapply list_elem_of_lookup_2.
  - apply (IH i j); [lia|done|done].
Qed.

(** In a valid cache the entries before index [i] are exactly the primes
    below the entry at [i]. *)
Lemma cache_primes_below (c : cache) (i : nat) (b p : Z) :
  cache_inv c → PRIME_LIST c !! i = Some b →
  prime_number p → p < b →
  ∃ j, (j < i)%nat ∧ PRIME_LIST c !! j = Some p.
Proof.
  intros [_ Hs] Hi Hp Hlt.
  assert (Hb : b ∈ PRIME_LIST c) by by eapply list_elem_of_lookup_2.
  apply (sieved_exact _ _ Hs) in Hb as [_ Hb].
  assert (Hin : p ∈ PRIME_LIST c)
    by (apply (sieved_exact _ _ Hs); split; [done|lia]).
  apply list_elem_of_lookup_1 in Hin as [j Hj]. exists j. split; [|done].
  destruct (decide (j < i)%nat) as [|Hge]; [done|exfalso].
  destruct (decide (j = i)) as [->|]; [rewrite Hi in Hj; injection Hj; lia|].
  pose proof (sorted_lookup_lt _ i j b p (sieved_ascending _ _ Hs)
    ltac:(lia) Hi Hj). lia.
Qed.

Lemma cache_lookup_prime (c : cache) (i : nat) (b : Z) :
  cache_inv c → PRIME_LIST c !! i = Some b → prime_number b.
Proof.
  intros [_ Hs] Hi.
  assert (Hb : b ∈ PRIME_LIST c) by by eapply list_elem_of_lookup_2.
  by apply (sieved_exact _ _ Hs) in Hb as [? _].
Qed.

Lemma odd_between (a a' : Z) :
  Z.odd a = true → Z.odd a' = true → a ≤ a' < a + 2 → a' = a.
Proof.
  intros Ha Ha' Hr. destruct (decide (a' = a)) as [|Hne]; [done|exfalso].
  assert (a' = a + 1) as -> by lia.
  rewrite Z.odd_add, Ha in Ha'. done.
Qed.

Lemma candidate_run_nonneg (n a b x : Z) :
  candidate n a b → (∀ m, 0 ≤ m → all_prime_upto a b m ↔ m ≤ x) → 0 ≤ x.
Proof.
  intros (Hb & _) Hrun. apply (Hrun 0); [lia|].
  intros n' Hn'. assert (n' = 0) as -> by lia. by rewrite poly_0.
Qed.

(** One iteration of the [a]-loop moves the frontier from [a] to [a + 2]. *)
Lemma record_best_upto (n a b x : Z) (best : best_t) :
  candidate n a b →
  (∀ m, 0 ≤ m → all_prime_upto a b m ↔ m ≤ x) →
  best_upto n a b best →
  best_upto n (a + 2) b (record_best best a b x).
Proof.
  intros Hcand Hrun. pose proof (candidate_run_nonneg _ _ _ _ Hcand Hrun) as Hx.
  destruct best as [[am bm] xm]. unfold best_upto, record_best.
  intros [Hbest Hall].
  assert (Hsplit : ∀ a' b', candidate n a' b' →
    visited_before a' b' (a + 2) b →
    visited_before a' b' a b ∨ (a', b') = (a, b)).
  { intros a' b' (_ & _ & Hodd' & _) [Hlt|[-> Hlt]]; [left; by left|].
    destruct (decide (a' < a)); [left; right; done|right].
    f_equal. destruct Hcand as (_ & _ & Hodd & _).
    apply odd_between; [done|done|lia]. }
  destruct (Z.ltb_spec xm x) as [Hlt|Hge].
  - split.
    + right. split_and!; [done|done|right; split; [done|lia]|].
      by apply Hrun.
    + intros a' b' Hc' Hv'.
      destruct (Hsplit a' b' Hc' Hv') as [Hold|Heq].
      * destruct (Hall a' b' Hc' Hold) as [Hmax _]. split.
        -- intros m Hm Hup. specialize (Hmax m Hm Hup). lia.
        -- intros Hup. specialize (Hmax x Hx Hup). lia.
      * injection Heq as -> ->. split; [|by left].
        intros m Hm Hup. by apply Hrun.
  - assert (Hbest' : 0 ≤ xm ∧ candidate n am bm ∧
      visited_before am bm a b ∧ all_prime_upto am bm xm).
    { destruct Hbest as [[Heq _]|?]; [|done]. injection Heq as _ _ ->. lia. }
    destruct Hbest' as (Hxm & Hcm & Hvm & Hupm). split.
    + right. split_and!; [done|done| |done].
      destruct Hvm as [?|[-> ?]]; [by left|right; split; [done|lia]].
    + intros a' b' Hc' Hv'.
      destruct (Hsplit a' b' Hc' Hv') as [Hold|Heq]; [by apply Hall|].
      injection Heq as -> ->. split.
      * intros m Hm Hup. apply Hrun in Hup; lia.
      * intros _. by right.
Qed.

(** The frontier only matters through the candidates before it. *)
Lemma best_upto_ext (n a0 b0 a1 b1 : Z) (best : best_t) :
  (∀ a b, candidate n a b →
     visited_before a b a0 b0 ↔ visited_before a b a1 b1) →
  best_upto n a0 b0 best → best_upto n a1 b1 best.
Proof.
  intros Hext. destruct best as [[am bm] xm]. unfold best_upto.
  intros [Hbest Hall]. split.
  - destruct Hbest as [[Heq Hnone]|(Hxm & Hcm & Hvm & Hupm)].
    + left. split; [done|]. intros a b Hc Hv. apply (Hnone a b Hc).
      by apply Hext.
    + right. split_and!; [done|done| |done]. by apply Hext.
  - intros a b Hc Hv. apply Hall; [done|]. by apply Hext.
Qed.

Lemma a_loop_spec (fuel : nat) (n b : Z) :
  prime_number b → b < n →
  ∀ (k : nat) (a : Z) (best : best_t) (c : cache) best' c',
    cache_inv c →
    Z.odd a = true → 1 - b ≤ a → a + 2 * Z.of_nat k ≤ n + 1 →
    best_upto n a b best →
    a_loop fuel k a b best c = Ok (best', c') →
    cache_inv c' ∧
    PRIME_LIST c `prefix_of` PRIME_LIST c' ∧
    best_upto n (a + 2 * Z.of_nat k) b best'.
Proof.
  intros Hb Hbn. induction k as [|k IH];
    intros a best c best' c' Hinv Hodd Hlo Hhi Hbest Hrun.
  - injection Hrun as <- <-. replace (a + 2 * Z.of_nat 0) with a by lia.
    done.
  - simpl in Hrun.
    destruct (get_x_max_loop fuel a b 0 c) as [[x c1]| |] eqn:Hx;
      try discriminate.
    apply (get_x_max_spec fuel a b c x c1 Hinv) in Hx
      as (Hinv1 & Hpre1 & _ & Hx).
    apply IH in Hrun as (Hinv' & Hpre' & Hbest'); try done.
    + split_and!; [done|by etrans|].
      by replace (a + 2 * Z.of_nat (S k)) with (a + 2 + 2 * Z.of_nat k)
        by lia.
    + by rewrite Z.odd_add, Hodd.
    + lia.
    + lia.
    + apply record_best_upto; [|done|done].
      split_and!; [done|done|done|lia|lia].
Qed.

Lemma odd_mod_2 (x : Z) : Z.odd x = true ↔ x mod 2 = 1.
Proof.
  pose proof (Z.bit0_mod x) as H. rewrite Z.bit0_odd in H.
  destruct (Z.odd x); simpl in H; split; intros; lia || done.
Qed.

Lemma a_lo_spec (n b : Z) :
  2 ≤ b → b < n →
  let a_lo := 1 - b + (if (1 - b) mod 2 =? 0 then 1 else 0) in
  Z.odd a_lo = true ∧ 1 - b ≤ a_lo ∧
  (a_lo = 1 - b ∨ Z.odd (1 - b) = false) ∧ a_lo ≤ 2 - b ∧
  n ≤ a_lo + 2 * Z.of_nat (range2_len a_lo n) ≤ n + 1.
Proof.
  intros Hb2 Hbn a_lo. unfold range2_len.
  assert (Hlo : a_lo = 1 - b ∧ (1 - b) mod 2 = 1 ∨
                a_lo = 2 - b ∧ (1 - b) mod 2 = 0).
  { subst a_lo. destruct (Z.eqb_spec ((1 - b) mod 2) 0) as [Hm|Hm].
    - right. split; [lia|done].
    - left. split; [lia|]. pose proof (Z.mod_pos_bound (1 - b) 2). lia. }
  clearbody a_lo.
  assert (Hk : 0 ≤ (n - a_lo + 1) / 2) by (apply Z.div_pos; lia).
  rewrite Z2Nat.id by done.
  assert (Hodd : Z.odd a_lo = true).
  { apply odd_mod_2. destruct Hlo as [[-> Hm]|[-> Hm]]; [done|].
    revert Hm. Z.div_mod_to_equations. lia. }
  assert (Hpar : a_lo = 1 - b ∨ Z.odd (1 - b) = false).
  { destruct Hlo as [[-> Hm]|[-> Hm]]; [by left|right].
    destruct (Z.odd (1 - b)) eqn:Ho; [|done].
    apply odd_mod_2 in Ho. lia. }
  split_and!; try done; try lia; Z.div_mod_to_equations; lia.
Qed.

Lemma b_loop_unfold (fuel g : nat) (n : Z) (i_b : nat) best (c : cache) :
  b_loop fuel g n i_b best c =
  match PRIME_LIST c !! i_b with
  | None => Raise IndexError
  | Some b =>
      if b <? n then
        match g with
        | O => Timeout
        | S g' =>
            let a_lo := 1 - b in
            let a_lo := a_lo + (if a_lo mod 2 =? 0 then 1 else 0) in
            match a_loop fuel (range2_len a_lo n) a_lo b best c with
            | Ok (best', c') => b_loop fuel g' n (S i_b) best' c'
            | Raise e => Raise e
            | Timeout => Timeout
            end
        end
      else Ok (best, c)
  end.
Proof. by destruct g. Qed.

(** At the head of the [b]-loop the candidates already visited are those
    with a smaller [b]. *)
Lemma candidate_before_head (n a b b0 : Z) :
  candidate n a b → visited_before a b (1 - b0) b0 ↔ b < b0.
Proof.
  intros (_ & _ & _ & Hlo & _). unfold visited_before. split.
  - intros [?|[-> ?]]; [done|lia].
  - by left.
Qed.

(** When the entry at the head is not below [n], every candidate has
    been visited. *)
Lemma best_upto_exit (n b : Z) (best : best_t) :
  n ≤ b → best_upto n (1 - b) b best → search_result n best.
Proof.
  intros Hge. destruct best as [[am bm] xm]. intros [Hbest Hall].
  assert (Hv : ∀ a' b', candidate n a' b' →
    visited_before a' b' (1 - b) b).
  { intros a' b' Hc. rewrite (candidate_before_head n a' b' b Hc).
    destruct Hc as (_ & ? & _). lia. }
  split.
  - destruct Hbest as [[Heq Hnone]|(? & ? & ? & ?)]; [left|by right].
    split; [done|]. intros a' b' Hc. by apply (Hnone a' b' Hc), Hv.
  - intros a' b' Hc. apply Hall; [done|by apply Hv].
Qed.

Lemma b_loop_spec (fuel : nat) (n : Z) :
  ∀ (g i_b : nat) (best : best_t) (c : cache) best' c',
    cache_inv c →
    (∀ b, PRIME_LIST c !! i_b = Some b → best_upto n (1 - b) b best) →
    b_loop fuel g n i_b best c = Ok (best', c') →
    cache_inv c' ∧
    PRIME_LIST c `prefix_of` PRIME_LIST c' ∧
    search_result n best'.
Proof.
  induction g as [|g IH]; intros i_b best c best' c' Hinv Hhead;
    rewrite b_loop_unfold;
    destruct (PRIME_LIST c !! i_b) as [b|] eqn:Hb; try discriminate;
    specialize (Hhead b eq_refl);
    (destruct (Z.ltb_spec b n) as [Hlt|Hge]; try discriminate).
  - (* exit with fuel 0 *)
    intros Hrun. injection Hrun as <- <-. split_and!; [done|done|].
    by apply (best_upto_exit n b).
  - (* one more prime below [n] *)
    cbv zeta. set (a_lo := 1 - b + _).
    pose proof (cache_lookup_prime c i_b b Hinv Hb) as Hprime.
    pose proof (a_lo_spec n b (prime_number_ge_2 b Hprime) Hlt)
      as (Hodd & Hlo & Hpar & Hle & Hk1 & Hk2).
    fold a_lo in Hodd, Hlo, Hpar, Hle, Hk1, Hk2.
    destruct (a_loop fuel (range2_len a_lo n) a_lo b best c)
      as [[best1 c1]| |] eqn:Ha; try discriminate.
    intros Hrun.
    apply (a_loop_spec fuel n b Hprime Hlt) in Ha
      as (Hinv1 & Hpre1 & Hbest1); try done.
    2:{ eapply best_upto_ext; [|exact Hhead].
        intros a' b' Hc. rewrite (candidate_before_head n a' b' b Hc).
        unfold visited_before. split; [by left|].
        intros [?|[-> Hlt']]; [done|exfalso].
        destruct Hc as (_ & _ & Hodd' & Hlo' & _).
        destruct Hpar as [Heq|Heven]; [lia|].
        assert (a' = 1 - b) as -> by lia. congruence. }
    apply IH in Hrun as (Hinv' & Hpre' & Hres); [|done|].
    + split_and!; [done|by etrans|done].
    + intros b2 Hb2. eapply best_upto_ext; [|exact Hbest1].
      pose proof (prefix_lookup_Some _ _ _ _ Hb Hpre1) as Hb1.
      pose proof (sorted_lookup_lt _ i_b (S i_b) b b2
        (sieved_ascending _ _ (proj2 Hinv1)) ltac:(lia) Hb1 Hb2) as Hbb2.
      intros a' b' Hc. rewrite (candidate_before_head n a' b' b2 Hc).
      unfold visited_before. split.
      * intros [?|[-> ?]]; lia.
      * intros Hlt'.
        destruct (cache_primes_below c1 (S i_b) b2 b' Hinv1 Hb2
          (proj1 Hc) Hlt') as (j & Hj & Hjb).
        destruct (decide (j = i_b)) as [->|Hne].
        -- rewrite Hb1 in Hjb. injection Hjb as <-. right.
           split; [done|]. destruct Hc as (_ & _ & _ & _ & ?). lia.
        -- left. apply (sorted_lookup_lt _ j i_b b' b
             (sieved_ascending _ _ (proj2 Hinv1)) ltac:(lia) Hjb Hb1).
  - (* exit *)
    intros Hrun. injection Hrun as <- <-. split_and!; [done|done|].
    by apply (best_upto_exit n b).
Qed.

Lemma main_spec (fuel : nat) (n : Z) (c : cache) best c' :
  cache_inv c →
  main fuel (PyInt n) c = Ok (best, c') →
  0 < n ∧ cache_inv c' ∧ search_result n best.
Proof.
  intros Hinv. unfold main. destruct (Z.ltb_spec 0 n) as [Hn|]; [|done].
  pose proof (is_prime_inv (n - 1) c Hinv) as Hinv1.
  destruct (is_prime (n - 1) c) as [r c1]. simpl in Hinv1. intros Hrun.
  apply b_loop_spec in Hrun as (Hinv' & _ & Hres); [done|done|].
  intros b Hb. split.
  - left. split; [done|]. intros a' b' Hc.
    rewrite (candidate_before_head n a' b' b Hc). intros Hlt.
    destruct (cache_primes_below c1 0 b b' Hinv1 Hb (proj1 Hc) Hlt)
      as (j & Hj & _). lia.
  - intros a' b' Hc. rewrite (candidate_before_head n a' b' b Hc).
    intros Hlt.
    destruct (cache_primes_below c1 0 b b' Hinv1 Hb (proj1 Hc) Hlt)
      as (j & Hj & _). lia.
Qed.

(** ** Small primes, read off the verified oracle *)

Lemma prime_number_2 : prime_number 2.
Proof. by apply (is_prime_correct 2 init_cache cache_inv_init). Qed.

Lemma prime_number_3 : prime_number 3.
Proof. by apply (is_prime_correct 3 init_cache cache_inv_init). Qed.

Lemma prime_number_5 : prime_number 5.
Proof. by apply (is_prime_correct 5 init_cache cache_inv_init). Qed.

Lemma even_prime (p : Z) : prime_number p → p mod 2 = 0 → p = 2.
Proof.
  intros [Hp Hd] Hm.
  destruct (Hd 2 ltac:(lia)) as [|]; [|lia|lia].
  apply Z.mod_divide; [lia|done].
Qed.

Lemma not_odd_mod_2 (x : Z) : Z.odd x = false ↔ x mod 2 = 0.
Proof.
  pose proof (Z.bit0_mod x) as H. rewrite Z.bit0_odd in H.
  destruct (Z.odd x); simpl in H; split; intros; lia || done.
Qed.

(** ** The pruning loses nothing *)

Lemma search_result_ge_1 (n : Z) (best : best_t) :
  3 ≤ n → search_result n best → 1 ≤ best.2.
Proof.
  destruct best as [[am bm] xm]. intros Hn [_ Hall]. simpl.
  assert (Hc : candidate n (-1) 2).
  { split_and!; [apply prime_number_2|lia|done|lia|lia]. }
  apply (Hall _ _ Hc); [lia|]. intros n' Hn'.
  assert (n' = 0 ∨ n' = 1) as [-> | ->] by lia; apply prime_number_2.
Qed.

Lemma search_result_ge_2 (n : Z) (best : best_t) :
  4 ≤ n → search_result n best → 2 ≤ best.2.
Proof.
  destruct best as [[am bm] xm]. intros Hn [_ Hall]. simpl.
  assert (Hc : candidate n (-1) 3).
  { split_and!; [apply prime_number_3|lia|done|lia|lia]. }
  apply (Hall _ _ Hc); [lia|]. intros n' Hn'.
  assert (n' = 0 ∨ n' = 1 ∨ n' = 2) as [-> | [-> | ->]] by lia;
    [apply prime_number_3|apply prime_number_3|apply prime_number_5].
Qed.

(** A pair with an even [a] has a run of at most [2], and of [2] only for
    [n^2 - 2n + 3]. *)
Lemma even_a_run (a b m : Z) :
  Z.odd a = false → 2 ≤ m → all_prime_upto a b m →
  a = -2 ∧ b = 3 ∧ m = 2.
Proof.
  intros Ha%not_odd_mod_2 Hm Hup.
  pose proof (Hup 0 ltac:(lia)) as H0. rewrite poly_0 in H0.
  pose proof (Hup 1 ltac:(lia)) as H1.
  pose proof (Hup 2 ltac:(lia)) as H2.
  unfold poly in H1, H2.
  replace (1 ^ 2 + a * 1 + b) with (1 + a + b) in H1 by lia.
  replace (2 ^ 2 + a * 2 + b) with (4 + 2 * a + b) in H2 by lia.
  destruct (decide (b mod 2 = 0)) as [Hb|Hb].
  - apply even_prime in H0 as ->; [|done].
    apply even_prime in H2; [|revert Ha; Z.div_mod_to_equations; lia].
    assert (a = -2) as -> by lia. destruct H1 as [? _]. lia.
  - apply even_prime in H1;
      [|revert Ha Hb; Z.div_mod_to_equations; lia].
    assert (a = 1 - b) as -> by lia.
    pose proof (prime_number_ge_2 _ H0). pose proof (prime_number_ge_2 _ H2).
    assert (b = 3) as -> by (revert Hb; Z.div_mod_to_equations; lia).
    split_and!; [lia|done|].
    destruct (decide (m = 2)) as [|Hne]; [done|exfalso].
    pose proof (Hup 3 ltac:(lia)) as Hat3. unfold poly in Hat3.
    replace (3 ^ 2 + (1 - 3) * 3 + 3) with (2 * 3) in Hat3 by lia.
    by apply (composite_not_prime 2 3) in Hat3.
Qed.

Lemma search_result_box (n : Z) (best : best_t) :
  search_result n best →
  ∀ a b m, Z.abs a < n → Z.abs b < n → 0 ≤ m →
    all_prime_upto a b m → m ≤ best.2.
Proof.
  intros Hres a b m Ha Hb Hm Hup.
  pose proof (Hup 0 ltac:(lia)) as Hp0. rewrite poly_0 in Hp0.
  pose proof (prime_number_ge_2 b Hp0) as Hb2.
  assert (Hn : 3 ≤ n) by lia.
  pose proof (search_result_ge_1 n best Hn Hres) as H1.
  destruct (decide (m ≤ 1)) as [|Hm2]; [lia|].
  destruct (Z.odd a) eqn:Hodd.
  - destruct best as [[am bm] xm]. destruct Hres as [_ Hall]. simpl.
    apply (Hall a b); [|done|done].
    pose proof (Hup 1 ltac:(lia)) as [Hp1 _]. unfold poly in Hp1.
    split_and!; [done|lia|done|lia|lia].
  - destruct (even_a_run a b m Hodd ltac:(lia) Hup) as (-> & -> & ->).
    apply (search_result_ge_2 n best); [lia|done].
Qed.

(** ** Exceptions *)

Lemma get_x_max_loop_no_raise (fuel : nat) (a b x : Z) (c : cache) e :
  get_x_max_loop fuel a b x c ≠ Raise e.
Proof.
  revert x c. induction fuel as [|fuel IH]; intros x c; simpl;
    destruct (is_prime (poly a b x) c) as [[] c1]; try done; apply IH.
Qed.

Lemma a_loop_no_raise (fuel k : nat) (a b : Z) best (c : cache) e :
  a_loop fuel k a b best c ≠ Raise e.
Proof.
  revert a best c. induction k as [|k IH]; intros a best c; simpl; [done|].
  pose proof (get_x_max_loop_no_raise fuel a b 0 c) as Hx.
  destruct (get_x_max_loop fuel a b 0 c) as [[x c1]|e'|]; [apply IH| |done].
  by destruct (Hx e').
Qed.

Lemma b_loop_raise (fuel g : nat) (n : Z) (i_b : nat) best (c : cache) e :
  b_loop fuel g n i_b best c = Raise e → e = IndexError.
Proof.
  revert i_b best c. induction g as [|g IH]; intros i_b best c;
    rewrite b_loop_unfold; destruct (PRIME_LIST c !! i_b) as [b|];
    try (intros [= <-]; done); destruct (b <? n); try done.
  cbv zeta. set (a_lo := 1 - b + _).
  pose proof (a_loop_no_raise fuel (range2_len a_lo n) a_lo b best c) as Ha.
  destruct (a_loop fuel _ a_lo b best c) as [[best1 c1]|e'|];
    [apply IH| |done].
  by destruct (Ha e').
Qed.

Lemma main_init_index_error (fuel : nat) (n : Z) :
  1 ≤ n ≤ 2 → main fuel (PyInt n) init_cache = Raise IndexError.
Proof.
  intros Hn. assert (n = 1 ∨ n = 2) as [-> | ->] by lia;
    unfold main; simpl; by rewrite b_loop_unfold.
Qed.

(** ** The code on concrete inputs *)

Example is_prime_sieves_to_30 :
  PRIME_LIST (is_prime 30 init_cache).2 = [2; 3; 5; 7; 11; 13; 17; 19; 23; 29]
  ∧ HIGHEST_CHECKED (is_prime 30 init_cache).2 = 30.
Proof. by vm_compute. Qed.

Example get_x_max_euler :
  ∃ c', get_x_max 50 (PyInt 1) (PyInt 41) init_cache = Ok (39, c').
Proof. eexists. vm_compute. reflexivity. Qed.

Example get_x_max_not_prime_b :
  ∃ c', get_x_max 0 (PyInt 1) (PyInt 9) init_cache = Ok (-1, c').
Proof. eexists. vm_compute. reflexivity. Qed.

Example main_3 : ∃ c', main 5 (PyInt 3) init_cache = Ok ((-1, 2, 1), c').
Proof. eexists. vm_compute. reflexivity. Qed.

(** With [N = 41] the pair [(1, 41)] of Euler's polynomial is out of reach:
    [b = 41] is not below [N]. *)
Example main_41 : ∃ c', main 60 (PyInt 41) init_cache = Ok ((-9, 37, 20), c').
Proof. eexists. vm_compute. reflexivity. Qed.

(** * The claims *)

(** C2. In every cache state reachable by calls of [is_prime], [is_prime x]
    answers [True] exactly when [x] is a prime number (at least 2, no
    positive divisor other than 1 and itself); in particular it answers
    [False] for every [x < 2]. *)
Theorem is_prime_iff_prime_number (c : cache) (x : Z) :
  reachable c →
  ((is_prime x c).1 = true ↔ prime_number x) ∧
  (x < 2 → (is_prime x c).1 = false).
Proof.
  intros Hinv%reachable_inv. split; [by apply is_prime_correct|].
  intros Hx. by rewrite is_prime_lt_2.
Qed.

Lemma is_prime_iff_prime_number_witness :
  reachable (is_prime 4 (is_prime 30 init_cache).2).2 ∧
  (((is_prime 9 (is_prime 4 (is_prime 30 init_cache).2).2).1 = true
      ↔ prime_number 9) ∧
   (9 < 2 → (is_prime 9 (is_prime 4 (is_prime 30 init_cache).2).2).1 = false)).
Proof.
  split.
  - apply reachable_call, reachable_call, reachable_init.
  - apply (is_prime_iff_prime_number _ 9).
    apply reachable_call, reachable_call, reachable_init.
Defined.

(** C5. A call of [is_prime] in a cache that satisfies the invariant leaves
    one that does: [PRIME_LIST] is strictly ascending and holds exactly the
    primes of [[2, HIGHEST_CHECKED]], [PRIME_SET] has the same elements,
    the old list is a prefix of the new one and [HIGHEST_CHECKED] has not
    decreased. *)
Theorem is_prime_preserves_cache (x : Z) (c : cache) :
  cache_inv c →
  let c' := (is_prime x c).2 in
  StronglySorted Z.lt (PRIME_LIST c') ∧
  (∀ p, p ∈ PRIME_LIST c' ↔ prime_number p ∧ 2 ≤ p ≤ HIGHEST_CHECKED c') ∧
  (∀ p, p ∈ PRIME_SET c' ↔ p ∈ PRIME_LIST c') ∧
  PRIME_LIST c `prefix_of` PRIME_LIST c' ∧
  HIGHEST_CHECKED c ≤ HIGHEST_CHECKED c'.
Proof.
  intros Hinv c'. destruct (is_prime_inv x c Hinv) as [_ [Hasc Hex Hmir]].
  fold c' in Hasc, Hex, Hmir. split_and!; [done| |done| |].
  - intros p. rewrite Hex. split; [|intros [? [_ ?]]; by split].
    intros [Hp ?]. split; [done|]. split; [by apply prime_number_ge_2|done].
  - apply is_prime_prefix.
  - subst c'. rewrite is_prime_highest. destruct (x <? 2); lia.
Qed.

Lemma is_prime_preserves_cache_witness :
  cache_inv init_cache ∧
  let c' := (is_prime 20 init_cache).2 in
  StronglySorted Z.lt (PRIME_LIST c') ∧
  (∀ p, p ∈ PRIME_LIST c' ↔ prime_number p ∧ 2 ≤ p ≤ HIGHEST_CHECKED c') ∧
  (∀ p, p ∈ PRIME_SET c' ↔ p ∈ PRIME_LIST c') ∧
  PRIME_LIST init_cache `prefix_of` PRIME_LIST c' ∧
  HIGHEST_CHECKED init_cache ≤ HIGHEST_CHECKED c'.
Proof.
  split; [apply cache_inv_init|].
  apply (is_prime_preserves_cache 20 init_cache), cache_inv_init.
Defined.

(** C9. The answers of [is_prime] do not depend on the order of the
    queries: a sequence of queries and any reordering of it (its ascending
    sort among them), issued from the same reachable cache, give every
    queried value the same answer. *)
Theorem is_prime_order_independent (c : cache) (qs qs' : list Z) :
  reachable c → qs ≡ₚ qs' →
  ∀ x r, (x, r) ∈ (query_all qs c).1 ↔ (x, r) ∈ (query_all qs' c).1.
Proof.
  intros Hinv%reachable_inv Hperm x r.
  rewrite !query_all_spec by done. by rewrite Hperm.
Qed.

Lemma is_prime_order_independent_witness :
  [3; 7; 9; 4; 2] ≡ₚ merge_sort Z.le [3; 7; 9; 4; 2] ∧
  ∀ x r,
    (x, r) ∈ (query_all [3; 7; 9; 4; 2] init_cache).1 ↔
    (x, r) ∈ (query_all (merge_sort Z.le [3; 7; 9; 4; 2]) init_cache).1.
Proof.
  split.
  - symmetry. apply merge_sort_Permutation.
  - apply (is_prime_order_independent init_cache); [apply reachable_init|].
    symmetry. apply merge_sort_Permutation.
Defined.

(** C3. When [get_x_max a b] returns [x_max], the values of
    [n^2 + a*n + b] are prime for all of [0..n] exactly for the [n] up to
    [x_max], so [x_max] is the largest such [n]; [x_max = -1] exactly when
    [b], the value at [0], is not prime; and a run length of [-1] leaves a
    recorded best triple with [x_max >= 0] as it is. *)
Theorem get_x_max_run_length (fuel : nat) (a b : Z) (c : cache) x_max c' :
  cache_inv c →
  get_x_max fuel (PyInt a) (PyInt b) c = Ok (x_max, c') →
  -1 ≤ x_max ∧
  (∀ n, 0 ≤ n → all_prime_upto a b n ↔ n ≤ x_max) ∧
  ¬ prime_number (poly a b (x_max + 1)) ∧
  (x_max = -1 ↔ ¬ prime_number b) ∧
  (x_max = -1 → ∀ a_max b_max x_best,
     0 ≤ x_best →
     record_best (a_max, b_max, x_best) a b x_max = (a_max, b_max, x_best)).
Proof.
  intros Hinv Hrun.
  pose proof (get_x_max_spec _ _ _ _ _ _ Hinv Hrun) as (_ & _ & Hlo & Hx).
  simpl in Hrun.
  apply get_x_max_loop_spec in Hrun as (_ & _ & _ & _ & _ & Hstop); [|done].
  split_and!; [done|done|done| |].
  - split.
    + intros ->. by rewrite <- (poly_0 a b).
    + intros Hnp. destruct (decide (x_max = -1)) as [|Hne]; [done|exfalso].
      apply Hnp. rewrite <- (poly_0 a b). apply (Hx 0); lia.
  - intros -> a_max b_max x_best Hbest. unfold record_best.
    by destruct (Z.ltb_spec x_best (-1)); [lia|].
Qed.

Lemma get_x_max_run_length_witness :
  cache_inv init_cache ∧
  -1 ≤ 39 ∧
  (∀ n, 0 ≤ n → all_prime_upto 1 41 n ↔ n ≤ 39) ∧
  ¬ prime_number (poly 1 41 (39 + 1)) ∧
  (39 = -1 ↔ ¬ prime_number 41) ∧
  (39 = -1 → ∀ a_max b_max x_best,
     0 ≤ x_best →
     record_best (a_max, b_max, x_best) 1 41 39 = (a_max, b_max, x_best)).
Proof.
  split; [apply cache_inv_init|].
  eapply (get_x_max_run_length 50 1 41 init_cache); [apply cache_inv_init|].
  vm_compute. reflexivity.
Defined.

(** C6. [get_x_max a b] terminates for all integers [a] and [b]: some
    [n >= 0] has [n^2 + a*n + b] not prime, and the loop returns whenever it
    may be re-entered [(|a| + 1) * |b|] times. *)
Theorem get_x_max_terminates (a b : Z) (c : cache) :
  cache_inv c →
  (∃ n, 0 ≤ n ∧ ¬ prime_number (poly a b n)) ∧
  ∀ fuel, (Z.to_nat (run_bound a b) ≤ fuel)%nat →
    ∃ x_max c', get_x_max fuel (PyInt a) (PyInt b) c = Ok (x_max, c').
Proof.
  intros Hinv.
  destruct (poly_not_prime_at_bound a b) as (n & Hn & Hnp). split.
  - exists n. split; [lia|done].
  - intros fuel Hfuel. simpl.
    apply (get_x_max_loop_returns (Z.to_nat n)); [done|lia|].
    by replace (0 + Z.of_nat (Z.to_nat n)) with n by lia.
Qed.

Lemma get_x_max_terminates_witness :
  cache_inv init_cache ∧
  (∃ n, 0 ≤ n ∧ ¬ prime_number (poly (-79) 1601 n)) ∧
  ∀ fuel, (Z.to_nat (run_bound (-79) 1601) ≤ fuel)%nat →
    ∃ x_max c',
      get_x_max fuel (PyInt (-79)) (PyInt 1601) init_cache = Ok (x_max, c').
Proof.
  split; [apply cache_inv_init|].
  apply (get_x_max_terminates (-79) 1601 init_cache), cache_inv_init.
Defined.

(** C4. [main(1)] and [main(2)], called in the initial cache, do not return
    a triple: the cache holds no prime after [is_prime(n - 1)], and the
    first evaluation of [PRIME_LIST[i_b]] raises [IndexError]. *)
Theorem main_index_error (fuel : nat) :
  main fuel (PyInt 1) init_cache = Raise IndexError ∧
  main fuel (PyInt 2) init_cache = Raise IndexError.
Proof. split; apply main_init_index_error; lia. Qed.

(** C8. [main(n)] fails its assertion exactly when [n] is not an [int] or
    [n <= 0], and [get_x_max(a, b)] exactly when [a] or [b] is not an
    [int]; the failure is the outcome of the call. *)
Theorem assertion_failures :
  (∀ fuel n c,
     main fuel n c = Raise AssertionError ↔
     type_is_int n = false ∨ ∃ z, n = PyInt z ∧ z ≤ 0) ∧
  (∀ fuel a b c,
     get_x_max fuel a b c = Raise AssertionError ↔
     type_is_int a = false ∨ type_is_int b = false).
Proof.
  split.
  - intros fuel n c. split.
    + destruct n as [z| | | |]; try (by left). unfold main.
      destruct (Z.ltb_spec 0 z) as [Hz|Hz]; [|right; by exists z].
      destruct (is_prime (z - 1) c) as [r c1].
      by intros ?%b_loop_raise.
    + intros [Hty|(z & -> & Hz)]; [by destruct n|].
      unfold main. by destruct (Z.ltb_spec 0 z); [lia|].
  - intros fuel a b c. split.
    + destruct a as [a'| | | |]; try (by left).
      destruct b as [b'| | | |]; try (by right).
      simpl. intros Hr. by apply get_x_max_loop_no_raise in Hr.
    + intros [Hty|Hty]; [by destruct a|].
      destruct a; [|done..]. by destruct b.
Qed.

(** C7. [main(1)], called in the cache that [is_prime(2)] leaves, does not
    raise: the head of [PRIME_LIST] is 2, not below 1, and the initial
    triple [(-1, -1, -1)] is returned, for which neither [|a| < N] nor
    [|b| < N] holds. *)
Theorem main_returns_out_of_bound (fuel : nat) :
  let c := (is_prime 2 init_cache).2 in
  main fuel (PyInt 1) c = Ok ((-1, -1, -1), c) ∧
  ¬ (Z.abs (-1) < 1).
Proof.
  split; [|lia]. unfold main. simpl. by rewrite b_loop_unfold.
Qed.

(** Outside that case the bound holds: a triple returned by [main(N)] has
    [|a| < N] and [|b| < N] when the call starts from the initial cache, and
    for [N >= 2] from any valid cache. *)
Lemma main_within_bound (fuel : nat) (N : Z) (c : cache) a b x_max c' :
  cache_inv c → c = init_cache ∨ 2 ≤ N → 0 < N →
  main fuel (PyInt N) c = Ok ((a, b, x_max), c') →
  Z.abs a < N ∧ Z.abs b < N.
Proof.
  intros Hinv Hstate HN Hrun.
  assert (HN2 : 2 ≤ N).
  { destruct Hstate as [->|]; [|done].
    destruct (decide (2 ≤ N)); [done|].
    by rewrite main_init_index_error in Hrun by lia. }
  apply main_spec in Hrun as (_ & _ & [Hbest _]); [|done].
  destruct Hbest as [[Heq _]|(_ & Hc & _)].
  - injection Heq as -> -> ->. lia.
  - destruct Hc as (Hb%prime_number_ge_2 & ? & _ & ? & ?). lia.
Qed.

(** C10. For [N >= 3], a triple returned by [main(N)] is not the sentinel:
    [x_max >= 1] (the pair [a = -1], [b = 2] has the value 2 at [n = 0] and
    [n = 1]), [b] is a prime with [2 <= b < N] and [a] is odd with
    [1 - b <= a < N]. *)
Theorem main_not_sentinel (fuel : nat) (N : Z) (c : cache) a b x_max c' :
  cache_inv c → 3 ≤ N →
  main fuel (PyInt N) c = Ok ((a, b, x_max), c') →
  (a, b, x_max) ≠ (-1, -1, -1) ∧
  1 ≤ x_max ∧
  poly (-1) 2 0 = 2 ∧ poly (-1) 2 1 = 2 ∧
  prime_number b ∧ 2 ≤ b < N ∧
  Z.odd a = true ∧ 1 - b ≤ a < N.
Proof.
  intros Hinv HN Hrun.
  apply main_spec in Hrun as (_ & _ & Hres); [|done].
  pose proof (search_result_ge_1 N _ HN Hres) as Hx. simpl in Hx.
  destruct Hres as [Hbest _].
  destruct Hbest as [[Heq _]|(_ & Hc & _)].
  { injection Heq as _ _ ->. lia. }
  destruct Hc as (Hb & ? & ? & ? & ?).
  pose proof (prime_number_ge_2 _ Hb).
  split_and!; try done. intros [= _ _ ->]. lia.
Qed.

Lemma main_not_sentinel_witness :
  cache_inv init_cache ∧ 3 ≤ 10 ∧
  (-3, 7, 5) ≠ (-1, -1, -1) ∧
  1 ≤ 5 ∧
  poly (-1) 2 0 = 2 ∧ poly (-1) 2 1 = 2 ∧
  prime_number 7 ∧ 2 ≤ 7 < 10 ∧
  Z.odd (-3) = true ∧ 1 - 7 ≤ -3 < 10.
Proof.
  split; [apply cache_inv_init|]. split; [lia|].
  eapply (main_not_sentinel 20 10 init_cache); [apply cache_inv_init|lia|].
  vm_compute. reflexivity.
Defined.

(** C1. [main(1)] and [main(2)], called in the cache that [is_prime(2)]
    leaves, return the initial triple [(-1, -1, -1)]: no prime is below [N],
    so the search visits no pair and the returned pair is none it
    encountered; for [N = 1] the pair also lies outside [|a| < N],
    [|b| < N]. *)
Theorem main_returns_unvisited_pair (fuel : nat) :
  let c := (is_prime 2 init_cache).2 in
  main fuel (PyInt 1) c = Ok ((-1, -1, -1), c) ∧
  main fuel (PyInt 2) c = Ok ((-1, -1, -1), c) ∧
  (∀ N a b, 1 ≤ N ≤ 2 → ¬ candidate N a b) ∧
  ¬ (Z.abs (-1) < 1 ∧ Z.abs (-1) < 1).
Proof.
  split_and!.
  - unfold main. simpl. by rewrite b_loop_unfold.
  - unfold main. simpl. by rewrite b_loop_unfold.
  - intros N a b HN (Hb%prime_number_ge_2 & ? & _). lia.
  - lia.
Qed.

(** For [N >= 3] the search does what it is meant to.  When [main(N)]
    returns [(a, b, x_max)]: no pair [(a', b')] with [|a'| < N] and
    [|b'| < N] has [n^2 + a'*n + b'] prime for all of [0..n] with
    [n > x_max]; the returned pair is one the search visits, with such a run
    up to [x_max] and no further; and every other pair the search visits
    with a run up to [x_max] comes later in the order of the visits ([b]
    ascending, then [a] ascending). *)
Lemma main_maximises_from_3 (fuel : nat) (N : Z) (c : cache) a b x_max c' :
  cache_inv c → 3 ≤ N →
  main fuel (PyInt N) c = Ok ((a, b, x_max), c') →
  (∀ a' b' n, Z.abs a' < N → Z.abs b' < N → 0 ≤ n →
     all_prime_upto a' b' n → n ≤ x_max) ∧
  candidate N a b ∧
  all_prime_upto a b x_max ∧
  ¬ prime_number (poly a b (x_max + 1)) ∧
  (∀ a' b', candidate N a' b' → all_prime_upto a' b' x_max →
     (a', b') = (a, b) ∨ visited_before a b a' b').
Proof.
  intros Hinv HN Hrun.
  apply main_spec in Hrun as (_ & _ & Hres); [|done].
  pose proof (search_result_box N _ Hres) as Hbox. simpl in Hbox.
  pose proof (search_result_ge_1 N _ HN Hres) as Hx1. simpl in Hx1.
  destruct Hres as [Hbest Hall].
  destruct Hbest as [[Heq Hnone]|(Hx & Hc & Hup)].
  { injection Heq as _ _ ->. lia. }
  split_and!; [done|done|done| |].
  - intros Hnext.
    assert (x_max + 1 ≤ x_max); [|lia].
    apply (Hall a b Hc); [lia|]. intros n' Hn'.
    destruct (decide (n' = x_max + 1)) as [->|]; [done|].
    apply Hup. lia.
  - intros a' b' Hc' Hup'. by apply (Hall a' b' Hc').
Qed.

(** * Further properties of the oracle *)

Lemma is_prime_answer (x : Z) (c : cache) :
  2 ≤ x →
  is_prime x c =
    (bool_decide (x ∈ PRIME_SET (is_prime x c).2), (is_prime x c).2).
Proof. intros Hx. unfold is_prime. by destruct (Z.ltb_spec x 2); [lia|]. Qed.

Lemma is_prime_below_watermark (z : Z) (c : cache) :
  z ≤ HIGHEST_CHECKED c ∨ z < 2 → (is_prime z c).2 = c.
Proof.
  intros Hz. unfold is_prime. destruct (Z.ltb_spec z 2); [done|]. simpl.
  by destruct (Z.ltb_spec (HIGHEST_CHECKED c) z); [lia|].
Qed.

(** A query at or below an earlier one finds the cache as that one left it,
    and repeating a query repeats its answer. *)
Theorem is_prime_repeat (x y : Z) (c : cache) :
  y ≤ x →
  (is_prime y (is_prime x c).2).2 = (is_prime x c).2 ∧
  is_prime x (is_prime x c).2 = is_prime x c.
Proof.
  intros Hyx. pose proof (is_prime_highest x c) as Hh.
  assert (Hidle : ∀ z, z ≤ x →
    (is_prime z (is_prime x c).2).2 = (is_prime x c).2).
  { intros z Hz. apply is_prime_below_watermark. rewrite Hh.
    destruct (Z.ltb_spec x 2); lia. }
  split; [by apply Hidle|].
  destruct (decide (x < 2)) as [Hx|Hx].
  - rewrite (is_prime_lt_2 x c Hx). simpl. by apply is_prime_lt_2.
  - rewrite (is_prime_answer x (is_prime x c).2) by lia.
    rewrite (Hidle x) by lia. symmetry. apply is_prime_answer. lia.
Qed.

Lemma is_prime_repeat_witness :
  3 ≤ 10 ∧
  (is_prime 3 (is_prime 10 init_cache).2).2 = (is_prime 10 init_cache).2 ∧
  is_prime 10 (is_prime 10 init_cache).2 = is_prime 10 init_cache.
Proof. split; [lia|]. apply (is_prime_repeat 10 3 init_cache). lia. Defined.

Lemma ascending_NoDup (l : list Z) : StronglySorted Z.lt l → NoDup l.
Proof.
  induction 1 as [|x l _ IH Hall]; constructor; [|done].
  intros Hin. rewrite Forall_forall in Hall. specialize (Hall x Hin). lia.
Qed.

Lemma ascending_unique (l k : list Z) :
  StronglySorted Z.lt l → StronglySorted Z.lt k →
  (∀ x, x ∈ l ↔ x ∈ k) → l = k.
Proof.
  intros Hl Hk Heq.
  apply (StronglySorted_unique_strong Z.lt); [|done|done|].
  - intros x y _ _ ? ?. lia.
  - apply NoDup_Permutation; [by apply ascending_NoDup..|done].
Qed.

Lemma cache_inv_unique (c1 c2 : cache) :
  cache_inv c1 → cache_inv c2 →
  HIGHEST_CHECKED c1 = HIGHEST_CHECKED c2 → c1 = c2.
Proof.
  intros [_ [Ha1 He1 Hm1]] [_ [Ha2 He2 Hm2]] Hh.
  destruct c1 as [l1 s1 h1], c2 as [l2 s2 h2]. simpl in *. subst h2.
  assert (l1 = l2) as ->.
  { apply ascending_unique; [done|done|]. intros x. by rewrite He1, He2. }
  f_equal. apply set_eq. intros x. by rewrite Hm1, Hm2.
Qed.

(** The watermark determines a valid cache: the list and the set are those
    of the primes up to it, whatever the queries that led there. *)
Theorem cache_determined_by_watermark (c1 c2 : cache) :
  cache_inv c1 → cache_inv c2 →
  HIGHEST_CHECKED c1 = HIGHEST_CHECKED c2 → c1 = c2.
Proof. apply cache_inv_unique. Qed.

Lemma cache_determined_by_watermark_witness :
  cache_inv (is_prime 4 (is_prime 12 init_cache).2).2 ∧
  cache_inv (is_prime 12 init_cache).2 ∧
  HIGHEST_CHECKED (is_prime 4 (is_prime 12 init_cache).2).2 =
    HIGHEST_CHECKED (is_prime 12 init_cache).2 ∧
  (is_prime 4 (is_prime 12 init_cache).2).2 = (is_prime 12 init_cache).2.
Proof.
  assert (H12 : cache_inv (is_prime 12 init_cache).2)
    by apply is_prime_inv, cache_inv_init.
  assert (H4 : cache_inv (is_prime 4 (is_prime 12 init_cache).2).2)
    by apply is_prime_inv, H12.
  split; [exact H4|]. split; [exact H12|]. split; [reflexivity|].
  apply (cache_determined_by_watermark _ _ H4 H12). reflexivity.
Defined.

(** Two queries in a row leave the cache that the larger of them leaves
    alone, in whichever order they come. *)
Theorem is_prime_twice (x y : Z) (c : cache) :
  cache_inv c →
  (is_prime y (is_prime x c).2).2 = (is_prime (Z.max x y) c).2.
Proof.
  intros Hinv. apply cache_inv_unique.
  - by apply is_prime_inv, is_prime_inv.
  - by apply is_prime_inv.
  - rewrite !is_prime_highest.
    destruct (Z.ltb_spec x 2), (Z.ltb_spec y 2), (Z.ltb_spec (Z.max x y) 2);
      lia.
Qed.

Lemma is_prime_twice_witness :
  cache_inv init_cache ∧
  (is_prime 8 (is_prime 25 init_cache).2).2 =
    (is_prime (Z.max 25 8) init_cache).2.
Proof.
  split; [apply cache_inv_init|].
  apply (is_prime_twice 25 8 init_cache), cache_inv_init.
Defined.

(** The early exit of the trial division at [y_mid] does not change its
    verdict: on a cache sieved up to [y - 1], stopping at the first prime
    above the square root of [y] gives what scanning every prime below [y]
    gives. *)
Theorem include_y_cutoff (c : cache) (y : Z) :
  2 ≤ y → sieved (y - 1) c →
  include_y (PRIME_LIST c) y (Z.sqrt y + 1) = include_y (PRIME_LIST c) y y.
Proof.
  intros Hy Hs. pose proof (include_y_prime c y Hy Hs) as Hcut.
  assert (Hfull : include_y (PRIME_LIST c) y y = true ↔ prime_number y).
  { rewrite include_y_spec;
      [|apply (sieved_ascending _ _ Hs)|apply (sieved_positive _ _ Hs)].
    split.
    - intros Hno. apply (prime_number_sqrt y Hy). intros p Hp Hle.
      pose proof (sqrt_lt_self y Hy). apply Hno; [|lia].
      apply (sieved_exact _ _ Hs). split; [done|lia].
    - intros [_ Hd] p Hp Hlt Hdiv.
      apply (sieved_exact _ _ Hs) in Hp as [[Hp2 _] _].
      destruct (Hd p ltac:(lia) Hdiv); lia. }
  destruct (include_y (PRIME_LIST c) y (Z.sqrt y + 1)),
    (include_y (PRIME_LIST c) y y); try done.
  - symmetry. by apply Hfull, Hcut.
  - by apply Hcut, Hfull.
Qed.

Lemma include_y_cutoff_witness :
  2 ≤ 50 ∧ sieved (50 - 1) (is_prime 49 init_cache).2 ∧
  include_y (PRIME_LIST (is_prime 49 init_cache).2) 50 (Z.sqrt 50 + 1) =
    include_y (PRIME_LIST (is_prime 49 init_cache).2) 50 50.
Proof.
  assert (Hs : sieved (50 - 1) (is_prime 49 init_cache).2)
    by exact (proj2 (is_prime_inv 49 init_cache cache_inv_init)).
  split; [lia|]. split; [exact Hs|].
  apply (include_y_cutoff _ 50 ltac:(lia) Hs).
Defined.

(** A valid cache holds each prime once: the list has no duplicates, the
    set has as many elements as the list, and that number is below the
    watermark. *)
Theorem cache_size (c : cache) :
  cache_inv c →
  NoDup (PRIME_LIST c) ∧
  size (PRIME_SET c) = length (PRIME_LIST c) ∧
  Z.of_nat (length (PRIME_LIST c)) < HIGHEST_CHECKED c.
Proof.
  intros [Hh [Hasc Hex Hmir]].
  pose proof (ascending_NoDup _ Hasc) as Hnd. split_and!; [done| |].
  - assert (PRIME_SET c = list_to_set (PRIME_LIST c)) as ->.
    { apply set_eq. intros x. by rewrite Hmir, elem_of_list_to_set. }
    by apply size_list_to_set.
  - assert (Hsub : PRIME_LIST c ⊆+ seqZ 2 (HIGHEST_CHECKED c - 1)).
    { apply NoDup_submseteq; [done|]. intros x [[Hx _] Hle]%Hex.
      apply elem_of_seqZ. lia. }
    apply submseteq_length in Hsub. rewrite length_seqZ in Hsub. lia.
Qed.

Lemma cache_size_witness :
  cache_inv (is_prime 100 init_cache).2 ∧
  NoDup (PRIME_LIST (is_prime 100 init_cache).2) ∧
  size (PRIME_SET (is_prime 100 init_cache).2) =
    length (PRIME_LIST (is_prime 100 init_cache).2) ∧
  Z.of_nat (length (PRIME_LIST (is_prime 100 init_cache).2)) <
    HIGHEST_CHECKED (is_prime 100 init_cache).2.
Proof.
  assert (H : cache_inv (is_prime 100 init_cache).2)
    by apply is_prime_inv, cache_inv_init.
  split; [exact H|]. apply (cache_size _ H).
Defined.

(** * Further properties of the run-length evaluator *)

Lemma poly_at_b (a b : Z) : poly a b b = b * (b + a + 1).
Proof. unfold poly. lia. Qed.

(** The run length of a pair does not depend on the cache the call starts
    from, nor on how often the loop may be re-entered. *)
Theorem get_x_max_cache_independent (fuel1 fuel2 : nat) (a b : Z)
    (c1 c2 : cache) x1 x2 c1' c2' :
  cache_inv c1 → cache_inv c2 →
  get_x_max fuel1 (PyInt a) (PyInt b) c1 = Ok (x1, c1') →
  get_x_max fuel2 (PyInt a) (PyInt b) c2 = Ok (x2, c2') →
  x1 = x2.
Proof.
  intros Hinv1 Hinv2 Hrun1 Hrun2.
  apply get_x_max_spec in Hrun1 as (_ & _ & Hlo1 & Hx1); [|done].
  apply get_x_max_spec in Hrun2 as (_ & _ & Hlo2 & Hx2); [|done].
  destruct (Z.lt_trichotomy x1 x2) as [Hlt|[?|Hgt]]; [exfalso|done|exfalso].
  - assert (x2 ≤ x1); [|lia]. apply Hx1; [lia|]. apply Hx2; lia.
  - assert (x1 ≤ x2); [|lia]. apply Hx2; [lia|]. apply Hx1; lia.
Qed.

Lemma get_x_max_cache_independent_witness :
  cache_inv init_cache ∧ cache_inv (is_prime 40 init_cache).2 ∧
  (∃ c1', get_x_max 20 (PyInt (-1)) (PyInt 11) init_cache = Ok (10, c1')) ∧
  (∃ c2', get_x_max 30 (PyInt (-1)) (PyInt 11) (is_prime 40 init_cache).2
            = Ok (10, c2')) ∧
  10 = 10.
Proof.
  assert (H : cache_inv (is_prime 40 init_cache).2)
    by apply is_prime_inv, cache_inv_init.
  split; [apply cache_inv_init|]. split; [exact H|].
  split; [eexists; vm_compute; reflexivity|].
  split; [eexists; vm_compute; reflexivity|].
  eapply (get_x_max_cache_independent 20 30 (-1) 11 init_cache
            (is_prime 40 init_cache).2);
    [apply cache_inv_init|exact H|vm_compute; reflexivity
    |vm_compute; reflexivity].
Defined.

(** The run of a pair ends before [(|a| + 1) * |b|], and before [b] when
    [b >= 2] and [a >= 1 - b], as for every pair the search visits. *)
Theorem get_x_max_bound (fuel : nat) (a b : Z) (c : cache) x_max c' :
  cache_inv c →
  get_x_max fuel (PyInt a) (PyInt b) c = Ok (x_max, c') →
  x_max < run_bound a b ∧ (2 ≤ b → 1 - b ≤ a → x_max < b).
Proof.
  intros Hinv Hrun.
  apply get_x_max_spec in Hrun as (_ & _ & Hlo & Hx); [|done].
  assert (Hstop : ∀ n, 0 ≤ n → ¬ prime_number (poly a b n) → x_max < n).
  { intros n Hn Hnp. destruct (decide (x_max < n)) as [|Hge]; [done|].
    exfalso. apply Hnp. apply (Hx x_max); lia. }
  split.
  - destruct (poly_not_prime_at_bound a b) as (n & Hn & Hnp).
    specialize (Hstop n ltac:(lia) Hnp). lia.
  - intros Hb Ha. apply Hstop; [lia|]. rewrite poly_at_b.
    apply composite_not_prime; lia.
Qed.

Lemma get_x_max_bound_witness :
  cache_inv init_cache ∧
  39 < run_bound 1 41 ∧ (2 ≤ 41 → 1 - 41 ≤ 1 → 39 < 41).
Proof.
  split; [apply cache_inv_init|].
  eapply (get_x_max_bound 50 1 41 init_cache); [apply cache_inv_init|].
  vm_compute. reflexivity.
Defined.

(** * Further properties of the search *)

(** ** What the loops do to the cache *)

Lemma a_loop_grows (fuel k : nat) (b : Z) :
  ∀ (a : Z) (best : best_t) (c : cache) best' c',
    cache_inv c →
    a_loop fuel k a b best c = Ok (best', c') →
    cache_inv c' ∧
    PRIME_LIST c `prefix_of` PRIME_LIST c' ∧
    HIGHEST_CHECKED c ≤ HIGHEST_CHECKED c'.
Proof.
  induction k as [|k IH]; intros a best c best' c' Hinv Hrun.
  - by injection Hrun as <- <-.
  - simpl in Hrun.
    destruct (get_x_max_loop fuel a b 0 c) as [[x c1]| |] eqn:Hx;
      try discriminate.
    apply get_x_max_loop_spec in Hx as (Hinv1 & Hpre1 & Hh1 & _); [|done].
    apply IH in Hrun as (Hinv' & Hpre' & Hh'); [|done].
    split_and!; [done|by etrans|lia].
Qed.

Lemma b_loop_grows (fuel : nat) (n : Z) :
  ∀ (g i_b : nat) (best : best_t) (c : cache) best' c',
    cache_inv c →
    b_loop fuel g n i_b best c = Ok (best', c') →
    cache_inv c' ∧
    PRIME_LIST c `prefix_of` PRIME_LIST c' ∧
    HIGHEST_CHECKED c ≤ HIGHEST_CHECKED c'.
Proof.
  induction g as [|g IH]; intros i_b best c best' c' Hinv;
    rewrite b_loop_unfold;
    destruct (PRIME_LIST c !! i_b) as [b|]; try discriminate;
    destruct (b <? n); try discriminate;
    try (by intros [= <- <-]).
  cbv zeta. set (a_lo := 1 - b + _).
  destruct (a_loop fuel (range2_len a_lo n) a_lo b best c)
    as [[best1 c1]| |] eqn:Ha; try discriminate.
  apply a_loop_grows in Ha as (Hinv1 & Hpre1 & Hh1); [|done].
  intros Hrun. apply IH in Hrun as (Hinv' & Hpre' & Hh'); [|done].
  split_and!; [done|by etrans|lia].
Qed.

(** A call of [main] that returns leaves a valid cache that extends the one
    it found: the old list is a prefix of the new one, the watermark has not
    decreased and is at least [N - 1]. *)
Theorem main_grows_cache (fuel : nat) (N : Z) (c : cache) best c' :
  cache_inv c →
  main fuel (PyInt N) c = Ok (best, c') →
  cache_inv c' ∧
  PRIME_LIST c `prefix_of` PRIME_LIST c' ∧
  HIGHEST_CHECKED c ≤ HIGHEST_CHECKED c' ∧
  N - 1 ≤ HIGHEST_CHECKED c'.
Proof.
  intros Hinv. unfold main. destruct (0 <? N); [|done].
  pose proof (is_prime_inv (N - 1) c Hinv) as Hinv1.
  pose proof (is_prime_prefix (N - 1) c) as Hpre1.
  pose proof (is_prime_highest (N - 1) c) as Hh1.
  destruct (is_prime (N - 1) c) as [r c1]. simpl in *. intros Hrun.
  apply b_loop_grows in Hrun as (Hinv' & Hpre' & Hh'); [|done].
  destruct Hinv as [? _].
  split_and!; [done|by etrans|..]; destruct (Z.ltb_spec (N - 1) 2); lia.
Qed.

Lemma main_grows_cache_witness :
  cache_inv (is_prime 5 init_cache).2 ∧
  ∃ best c',
    main 20 (PyInt 10) (is_prime 5 init_cache).2 = Ok (best, c') ∧
    cache_inv c' ∧
    PRIME_LIST (is_prime 5 init_cache).2 `prefix_of` PRIME_LIST c' ∧
    HIGHEST_CHECKED (is_prime 5 init_cache).2 ≤ HIGHEST_CHECKED c' ∧
    10 - 1 ≤ HIGHEST_CHECKED c'.
Proof.
  assert (H : cache_inv (is_prime 5 init_cache).2)
    by apply is_prime_inv, cache_inv_init.
  split; [exact H|].
  destruct (main 20 (PyInt 10) (is_prime 5 init_cache).2)
    as [[best c']| |] eqn:Hrun; [|by vm_compute in Hrun..].
  exists best, c'. split; [done|].
  exact (main_grows_cache 20 10 _ best c' H Hrun).
Defined.

(** ** The answer of the search *)

Lemma visited_before_asym (a b a' b' : Z) :
  visited_before a b a' b' → visited_before a' b' a b → False.
Proof. unfold visited_before. lia. Qed.

Lemma search_result_unique (n : Z) (best1 best2 : best_t) :
  search_result n best1 → search_result n best2 → best1 = best2.
Proof.
  destruct best1 as [[a1 b1] x1], best2 as [[a2 b2] x2].
  intros [Hbest1 Hall1] [Hbest2 Hall2].
  destruct Hbest1 as [[Heq1 Hnone1]|(Hx1 & Hc1 & Hup1)],
    Hbest2 as [[Heq2 Hnone2]|(Hx2 & Hc2 & Hup2)].
  - congruence.
  - by destruct (Hnone1 a2 b2).
  - by destruct (Hnone2 a1 b1).
  - destruct (Hall1 a2 b2 Hc2) as [Hmax1 Htie1].
    destruct (Hall2 a1 b1 Hc1) as [Hmax2 Htie2].
    pose proof (Hmax1 x2 Hx2 Hup2). pose proof (Hmax2 x1 Hx1 Hup1).
    assert (x1 = x2) as -> by lia.
    destruct (Htie1 Hup2) as [Heq|Hv1]; [congruence|].
    destruct (Htie2 Hup1) as [Heq|Hv2]; [congruence|].
    by destruct (visited_before_asym _ _ _ _ Hv1 Hv2).
Qed.

(** The triple [main(N)] returns does not depend on the cache the call
    starts from, nor on how often the loops may be re-entered: a cache
    warmed by earlier calls changes the cost, not the answer. *)
Theorem main_cache_independent (fuel1 fuel2 : nat) (N : Z) (c1 c2 : cache)
    best1 best2 c1' c2' :
  cache_inv c1 → cache_inv c2 →
  main fuel1 (PyInt N) c1 = Ok (best1, c1') →
  main fuel2 (PyInt N) c2 = Ok (best2, c2') →
  best1 = best2.
Proof.
  intros Hinv1 Hinv2 Hrun1 Hrun2.
  apply main_spec in Hrun1 as (_ & _ & Hres1); [|done].
  apply main_spec in Hrun2 as (_ & _ & Hres2); [|done].
  by apply (search_result_unique N).
Qed.

Lemma main_cache_independent_witness :
  cache_inv init_cache ∧ cache_inv (is_prime 40 init_cache).2 ∧
  (∃ c1', main 20 (PyInt 12) init_cache = Ok ((-1, 11, 10), c1')) ∧
  (∃ c2', main 40 (PyInt 12) (is_prime 40 init_cache).2
            = Ok ((-1, 11, 10), c2')) ∧
  (-1, 11, 10) = (-1, 11, 10).
Proof.
  assert (H : cache_inv (is_prime 40 init_cache).2)
    by apply is_prime_inv, cache_inv_init.
  split; [apply cache_inv_init|]. split; [exact H|].
  split; [eexists; vm_compute; reflexivity|].
  split; [eexists; vm_compute; reflexivity|].
  eapply (main_cache_independent 20 40 12 init_cache
            (is_prime 40 init_cache).2);
    [apply cache_inv_init|exact H|vm_compute; reflexivity
    |vm_compute; reflexivity].
Defined.

(** The run of the returned pair ends before its [b]: for [N >= 3] the
    returned [x_max] is below [b], hence at most [N - 2]. *)
Theorem main_run_below_b (fuel : nat) (N : Z) (c : cache) a b x_max c' :
  cache_inv c → 3 ≤ N →
  main fuel (PyInt N) c = Ok ((a, b, x_max), c') →
  x_max < b ∧ x_max ≤ N - 2.
Proof.
  intros Hinv HN Hrun.
  apply main_spec in Hrun as (_ & _ & Hres); [|done].
  pose proof (search_result_ge_1 N _ HN Hres) as Hx. simpl in Hx.
  destruct Hres as [[[Heq _]|(_ & Hc & Hup)] _].
  { injection Heq as _ _ ->. lia. }
  destruct Hc as (Hb%prime_number_ge_2 & HbN & _ & Hlo & _).
  assert (x_max < b); [|lia].
  destruct (decide (x_max < b)) as [|Hge]; [done|exfalso].
  pose proof (Hup b ltac:(lia)) as Hp. rewrite poly_at_b in Hp.
  revert Hp. apply composite_not_prime; lia.
Qed.

Lemma main_run_below_b_witness :
  cache_inv init_cache ∧ 3 ≤ 12 ∧ 10 < 11 ∧ 10 ≤ 12 - 2.
Proof.
  split; [apply cache_inv_init|]. split; [lia|].
  eapply (main_run_below_b 20 12 init_cache (-1) 11 10);
    [apply cache_inv_init|lia|].
  vm_compute. reflexivity.
Defined.

(** A larger bound never gives a shorter run: for [3 <= N <= N'], the
    [x_max] of [main(N)] is at most that of [main(N')]. *)
Theorem main_monotone (fuel fuel' : nat) (N N' : Z) (c c0 : cache)
    a b x_max c' a' b' x_max' c0' :
  cache_inv c → cache_inv c0 → 3 ≤ N ≤ N' →
  main fuel (PyInt N) c = Ok ((a, b, x_max), c') →
  main fuel' (PyInt N') c0 = Ok ((a', b', x_max'), c0') →
  x_max ≤ x_max'.
Proof.
  intros Hinv Hinv0 HN Hrun Hrun'.
  apply main_spec in Hrun as (_ & _ & Hres); [|done].
  apply main_spec in Hrun' as (_ & _ & [_ Hall']); [|done].
  pose proof (search_result_ge_1 N _ ltac:(lia) Hres) as Hx. simpl in Hx.
  destruct Hres as [[[Heq _]|(_ & Hc & Hup)] _].
  { injection Heq as _ _ ->. lia. }
  apply (Hall' a b); [|lia|done].
  destruct Hc as (? & ? & ? & ? & ?). split_and!; [done|lia|done|lia|lia].
Qed.

Lemma main_monotone_witness :
  cache_inv init_cache ∧ cache_inv init_cache ∧ 3 ≤ 10 ≤ 12 ∧ 5 ≤ 10.
Proof.
  split; [apply cache_inv_init|]. split; [apply cache_inv_init|].
  split; [lia|].
  eapply (main_monotone 20 20 10 12 init_cache init_cache (-3) 7 5 _
            (-1) 11 10);
    [apply cache_inv_init|apply cache_inv_init|lia
    |vm_compute; reflexivity|vm_compute; reflexivity].
Defined.

(** ** No prime below [N] *)

Lemma cache_head (c : cache) :
  cache_inv c → 2 ≤ HIGHEST_CHECKED c →
  ∃ b, PRIME_LIST c !! 0%nat = Some b ∧ prime_number b.
Proof.
  intros Hinv Hh. destruct Hinv as [H1 Hs].
  assert (Hin : 2 ∈ PRIME_LIST c)
    by (apply (sieved_exact _ _ Hs); split; [apply prime_number_2|done]).
  destruct (PRIME_LIST c) as [|b l] eqn:Hl; [by apply elem_of_nil in Hin|].
  exists b. split; [done|].
  apply (cache_lookup_prime c 0 b); [by split|by rewrite Hl].
Qed.

Lemma cache_fresh_empty (c : cache) :
  cache_inv c → HIGHEST_CHECKED c = 1 → PRIME_LIST c = [].
Proof.
  intros [_ Hs] Hh. destruct (PRIME_LIST c) as [|b l] eqn:Hl; [done|].
  assert (Hin : b ∈ PRIME_LIST c) by (rewrite Hl; left).
  apply (sieved_exact _ _ Hs) in Hin as [[? _] ?]. lia.
Qed.

Lemma main_small_bound (fuel : nat) (n : Z) (c : cache) :
  cache_inv c → 1 ≤ n ≤ 2 →
  (HIGHEST_CHECKED c = 1 → main fuel (PyInt n) c = Raise IndexError) ∧
  (2 ≤ HIGHEST_CHECKED c → main fuel (PyInt n) c = Ok ((-1, -1, -1), c)).
Proof.
  intros Hinv HN. unfold main. destruct (Z.ltb_spec 0 n); [|lia].
  rewrite (is_prime_lt_2 (n - 1) c) by lia. rewrite b_loop_unfold. split.
  - intros Hh. by rewrite (cache_fresh_empty c Hinv Hh).
  - intros Hh. destruct (cache_head c Hinv Hh) as (b & -> & Hb).
    apply prime_number_ge_2 in Hb. by destruct (Z.ltb_spec b n); [lia|].
Qed.

(** For [N = 1] and [N = 2] no prime is below [N]: from a valid cache whose
    watermark is still 1 the call raises [IndexError]; from one that holds a
    prime it returns the initial triple [(-1, -1, -1)] and leaves the cache
    as it was. *)
Theorem main_no_prime_below (fuel : nat) (N : Z) (c : cache) :
  cache_inv c → 1 ≤ N ≤ 2 →
  (HIGHEST_CHECKED c = 1 → main fuel (PyInt N) c = Raise IndexError) ∧
  (2 ≤ HIGHEST_CHECKED c → main fuel (PyInt N) c = Ok ((-1, -1, -1), c)).
Proof. apply main_small_bound. Qed.

Lemma main_no_prime_below_witness :
  cache_inv (is_prime 7 init_cache).2 ∧ 1 ≤ 2 ≤ 2 ∧
  (HIGHEST_CHECKED (is_prime 7 init_cache).2 = 1 →
     main 0 (PyInt 2) (is_prime 7 init_cache).2 = Raise IndexError) ∧
  (2 ≤ HIGHEST_CHECKED (is_prime 7 init_cache).2 →
     main 0 (PyInt 2) (is_prime 7 init_cache).2
       = Ok ((-1, -1, -1), (is_prime 7 init_cache).2)).
Proof.
  assert (H : cache_inv (is_prime 7 init_cache).2)
    by apply is_prime_inv, cache_inv_init.
  split; [exact H|]. split; [lia|].
  apply (main_no_prime_below 0 2 _ H). lia.
Defined.

(** ** The search returns *)

Lemma get_x_max_loop_first (fuel : nat) (a b x : Z) (c : cache) r c' :
  cache_inv c →
  get_x_max_loop fuel a b x c = Ok (r, c') →
  HIGHEST_CHECKED (is_prime (poly a b x) c).2 ≤ HIGHEST_CHECKED c'.
Proof.
  intros Hinv. pose proof (is_prime_inv (poly a b x) c Hinv) as Hinv1.
  destruct fuel as [|fuel]; simpl;
    destruct (is_prime (poly a b x) c) as [[] c1]; simpl in *;
    try discriminate; try (by intros [= <- <-]).
  intros Hrun.
  by apply get_x_max_loop_spec in Hrun as (_ & _ & Hh & _).
Qed.

(** After the run of a pair with a prime [b], the cache has been sieved up
    to the value at [n = 1]. *)
Lemma get_x_max_loop_watermark (fuel : nat) (a b : Z) (c : cache) r c' :
  cache_inv c → prime_number b → 2 ≤ poly a b 1 →
  get_x_max_loop fuel a b 0 c = Ok (r, c') →
  poly a b 1 ≤ HIGHEST_CHECKED c'.
Proof.
  intros Hinv Hb H1.
  pose proof (is_prime_correct (poly a b 0) c Hinv) as Hcorr.
  pose proof (is_prime_inv (poly a b 0) c Hinv) as Hinv1.
  rewrite <- (poly_0 a b) in Hb.
  destruct fuel as [|fuel]; simpl;
    destruct (is_prime (poly a b 0) c) as [[] c1]; simpl in *;
    try discriminate;
    try (intros _; destruct Hcorr as [_ Hfalse]; by specialize (Hfalse Hb)).
  intros Hrun. apply get_x_max_loop_first in Hrun; [|done].
  change (0 + 1) with 1 in Hrun. rewrite is_prime_highest in Hrun.
  destruct (Z.ltb_spec (poly a b 1) 2); lia.
Qed.

Lemma a_loop_returns (fuel : nat) (b : Z) :
  prime_number b → (Z.to_nat b ≤ fuel)%nat →
  ∀ (k : nat) (a : Z) (best : best_t) (c : cache),
    cache_inv c → 1 - b ≤ a →
    ∃ best' c',
      a_loop fuel k a b best c = Ok (best', c') ∧
      cache_inv c' ∧
      PRIME_LIST c `prefix_of` PRIME_LIST c' ∧
      HIGHEST_CHECKED c ≤ HIGHEST_CHECKED c' ∧
      ((0 < k)%nat → a + 2 * (Z.of_nat k - 1) + b + 1 ≤ HIGHEST_CHECKED c').
Proof.
  intros Hb Hfuel. pose proof (prime_number_ge_2 b Hb) as Hb2.
  induction k as [|k IH]; intros a best c Hinv Ha.
  - exists best, c. split_and!; [done|done|done|lia|lia].
  - simpl.
    destruct (get_x_max_loop_returns (Z.to_nat b) a b fuel 0 c Hinv Hfuel)
      as (x & c1 & Hx).
    { replace (0 + Z.of_nat (Z.to_nat b)) with b by lia.
      rewrite poly_at_b. apply composite_not_prime; lia. }
    rewrite Hx.
    pose proof (get_x_max_loop_watermark fuel a b c x c1 Hinv Hb
      ltac:(unfold poly; lia) Hx) as Hw.
    apply get_x_max_loop_spec in Hx as (Hinv1 & Hpre1 & Hh1 & _); [|done].
    destruct (IH (a + 2) (record_best best a b x) c1 Hinv1 ltac:(lia))
      as (best' & c' & Hrun & Hinv' & Hpre' & Hh' & Hlast).
    exists best', c'. split_and!; [done|done|by etrans|lia|].
    intros _. unfold poly in Hw. destruct k as [|k]; [lia|].
    specialize (Hlast ltac:(lia)). lia.
Qed.

Lemma b_loop_returns (fuel : nat) (n : Z) :
  prime_gaps_upto n → (Z.to_nat n ≤ fuel)%nat →
  ∀ (g i_b : nat) (best : best_t) (c : cache) (b : Z),
    cache_inv c → PRIME_LIST c !! i_b = Some b →
    (Z.to_nat (n - b) ≤ g)%nat →
    ∃ best' c', b_loop fuel g n i_b best c = Ok (best', c').
Proof.
  intros Hgaps Hfuel.
  induction g as [|g IH]; intros i_b best c b Hinv Hb Hg;
    rewrite b_loop_unfold, Hb;
    (destruct (Z.ltb_spec b n) as [Hlt|Hge]; [|by eauto]); [lia|].
  cbv zeta. set (a_lo := 1 - b + _).
  pose proof (cache_lookup_prime c i_b b Hinv Hb) as Hprime.
  pose proof (prime_number_ge_2 b Hprime) as Hb2.
  pose proof (a_lo_spec n b Hb2 Hlt) as (_ & Hlo & _ & Hle & Hk1 & _).
  fold a_lo in Hlo, Hle, Hk1.
  destruct (a_loop_returns fuel b Hprime ltac:(lia) (range2_len a_lo n)
              a_lo best c Hinv Hlo)
    as (best1 & c1 & -> & Hinv1 & Hpre1 & _ & Hlast).
  specialize (Hlast ltac:(lia)).
  destruct (Hgaps b ltac:(lia)) as (q & Hq & Hbq & Hq2).
  pose proof (prefix_lookup_Some _ _ _ _ Hb Hpre1) as Hb1.
  assert (Hin : q ∈ PRIME_LIST c1).
  { apply (sieved_exact _ _ (proj2 Hinv1)). split; [done|lia]. }
  apply list_elem_of_lookup_1 in Hin as [j Hj].
  assert (Hij : (i_b < j)%nat).
  { destruct (decide (i_b < j)%nat) as [|Hle']; [done|exfalso].
    destruct (decide (j = i_b)) as [->|];
      [rewrite Hb1 in Hj; simplify_eq; lia|].
    pose proof (sorted_lookup_lt _ j i_b q b
      (sieved_ascending _ _ (proj2 Hinv1)) ltac:(lia) Hj Hb1). lia. }
  destruct (lookup_lt_is_Some_2 (PRIME_LIST c1) (S i_b)) as [b' Hb'].
  { apply lookup_lt_Some in Hj. lia. }
  pose proof (sorted_lookup_lt _ i_b (S i_b) b b'
    (sieved_ascending _ _ (proj2 Hinv1)) ltac:(lia) Hb1 Hb').
  apply (IH (S i_b) best1 c1 b'); [done|done|lia].
Qed.

Lemma doubling_gaps (l : list Z) :
  ∀ p m, doubling p l = true → Forall prime_number l →
    p ≤ m → (∃ q, q ∈ l ∧ m < q) →
    ∃ q, prime_number q ∧ m < q ≤ 2 * m.
Proof.
  induction l as [|q l IH]; intros p m Hd Hprimes Hpm (q' & Hq' & Hlt).
  - by apply elem_of_nil in Hq'.
  - simpl in Hd. apply andb_prop in Hd as [Hd Hd3].
    apply andb_prop in Hd as [Hd1 Hd2].
    apply Z.ltb_lt in Hd1. apply Z.leb_le in Hd2.
    apply Forall_cons in Hprimes as [Hq Hprimes].
    destruct (decide (m < q)) as [|Hge].
    + exists q. split; [done|lia].
    + apply (IH q m); [done|done|lia|].
      exists q'. split; [|done].
      apply elem_of_cons in Hq' as [->|]; [lia|done].
Qed.

Lemma doubling_chain_primes : Forall prime_number doubling_chain.
Proof.
  unfold doubling_chain.
  repeat (apply Forall_cons; split;
    [apply (is_prime_correct _ init_cache cache_inv_init);
     vm_compute; reflexivity|]).
  by apply Forall_nil.
Qed.

Lemma prime_gaps_upto_limit : prime_gaps_upto search_limit.
Proof.
  intros m Hm. unfold search_limit in Hm.
  apply (doubling_gaps (tail doubling_chain) 2 m);
    [by vm_compute| |lia|].
  - pose proof doubling_chain_primes as H. by apply Forall_cons in H as [_ H].
  - exists 9973. split; [|lia]. unfold doubling_chain. simpl.
    rewrite !elem_of_cons. tauto.
Qed.

Lemma main_returns (fuel : nat) (n : Z) (c : cache) :
  cache_inv c → 3 ≤ n → prime_gaps_upto n → (Z.to_nat n ≤ fuel)%nat →
  ∃ best c', main fuel (PyInt n) c = Ok (best, c').
Proof.
  intros Hinv Hn Hgaps Hfuel. unfold main.
  destruct (Z.ltb_spec 0 n); [|lia].
  pose proof (is_prime_inv (n - 1) c Hinv) as Hinv1.
  pose proof (is_prime_highest (n - 1) c) as Hh1.
  destruct (is_prime (n - 1) c) as [r c1]. simpl in *.
  destruct (Z.ltb_spec (n - 1) 2); [lia|].
  destruct (cache_head c1 Hinv1 ltac:(lia)) as (b & Hb & Hprime).
  apply prime_number_ge_2 in Hprime.
  apply (b_loop_returns fuel n Hgaps Hfuel fuel 0%nat _ c1 b); [done|done|lia].
Qed.

(** For every [N] from 3 to 9973, [main(N)] returns a triple from any
    valid cache: each evaluation of [PRIME_LIST[i_b]] is within the list,
    because the run of the last [a] for a prime [b] sieves the cache up to
    at least [2b], and a prime lies between [b] and [2b].  The loops are
    re-entered at most [N] times each. *)
Theorem main_terminates (fuel : nat) (N : Z) (c : cache) :
  cache_inv c → 3 ≤ N ≤ search_limit → (Z.to_nat N ≤ fuel)%nat →
  ∃ best c', main fuel (PyInt N) c = Ok (best, c').
Proof.
  intros Hinv HN Hfuel. apply main_returns; [done|lia| |done].
  intros m Hm. apply prime_gaps_upto_limit. lia.
Qed.

Lemma main_terminates_witness :
  cache_inv init_cache ∧ 3 ≤ 1000 ≤ search_limit ∧
  (Z.to_nat 1000 ≤ 1000)%nat ∧
  ∃ best c', main 1000 (PyInt 1000) init_cache = Ok (best, c').
Proof.
  split; [apply cache_inv_init|]. split; [by vm_compute|]. split; [lia|].
  apply (main_terminates 1000 1000 init_cache);
    [apply cache_inv_init|by vm_compute|lia].
Defined.

(** * The command-line block *)

Lemma table_rows_lookup (a b x : Z) (i : nat) :
  Z.of_nat i ≤ x →
  table_rows a b x !! i = Some (Z.of_nat i, poly a b (Z.of_nat i)).
Proof.
  intros Hi. unfold table_rows. rewrite list_lookup_fmap.
  rewrite lookup_seqZ_lt by lia. simpl. by rewrite Z.add_0_l.
Qed.

Lemma table_rows_length (a b x : Z) :
  length (table_rows a b x) = Z.to_nat (x + 1).
Proof. unfold table_rows. by rewrite length_fmap, length_seqZ. Qed.

(** For [N >= 3] the table that is printed has the rows [n = 0 .. x_max] in
    order, at least two of them; every value in it is prime and the value
    that would come next is not; the product printed is [a * b], of
    absolute value below [N * N]. *)
Theorem report_table (fuel : nat) (N : Z) (c : cache)
    a b x_max rows product c' :
  cache_inv c → 3 ≤ N →
  report fuel N c = Ok ((a, b, x_max), rows, product, c') →
  length rows = Z.to_nat (x_max + 1) ∧
  (2 ≤ length rows)%nat ∧
  (∀ i, (i < length rows)%nat →
     rows !! i = Some (Z.of_nat i, poly a b (Z.of_nat i))) ∧
  Forall (λ row, prime_number row.2) rows ∧
  ¬ prime_number (poly a b (Z.of_nat (length rows))) ∧
  product = a * b ∧ Z.abs product < N * N.
Proof.
  intros Hinv HN. unfold report.
  destruct (main fuel (PyInt N) c) as [[[[a' b'] x'] c1]| |] eqn:Hrun;
    try discriminate.
  intros [= -> -> -> <- <- <-].
  apply main_spec in Hrun as (_ & _ & Hres); [|done].
  pose proof (search_result_ge_1 N _ HN Hres) as Hx. simpl in Hx.
  destruct Hres as [[[Heq _]|(_ & Hc & Hup)] Hall].
  { injection Heq as _ _ ->. lia. }
  rewrite table_rows_length. split_and!; [done|lia| | | |done|].
  - intros i Hi. apply table_rows_lookup. lia.
  - unfold table_rows. apply Forall_fmap, Forall_seqZ. intros n Hn. simpl.
    apply Hup. lia.
  - replace (Z.of_nat (Z.to_nat (x_max + 1))) with (x_max + 1) by lia.
    intros Hnext. assert (x_max + 1 ≤ x_max); [|lia].
    apply (Hall a b Hc); [lia|]. intros n' Hn'.
    destruct (decide (n' = x_max + 1)) as [->|]; [done|]. apply Hup. lia.
  - destruct Hc as (Hb%prime_number_ge_2 & ? & _ & ? & ?). nia.
Qed.

Lemma report_table_witness :
  cache_inv init_cache ∧ 3 ≤ 10 ∧
  let rows := [(0, 7); (1, 5); (2, 5); (3, 7); (4, 11); (5, 17)] in
  length rows = Z.to_nat (5 + 1) ∧
  (2 ≤ length rows)%nat ∧
  (∀ i, (i < length rows)%nat →
     rows !! i = Some (Z.of_nat i, poly (-3) 7 (Z.of_nat i))) ∧
  Forall (λ row, prime_number row.2) rows ∧
  ¬ prime_number (poly (-3) 7 (Z.of_nat (length rows))) ∧
  -21 = -3 * 7 ∧ Z.abs (-21) < 10 * 10.
Proof.
  split; [apply cache_inv_init|]. split; [lia|].
  eapply (report_table 20 10 init_cache (-3) 7 5);
    [apply cache_inv_init|lia|].
  vm_compute. reflexivity.
Defined.

(** For [N = 1] and [N = 2] the block prints no row: in a fresh process the
    [IndexError] of [main] is not caught, and from a cache that holds a
    prime the table is empty and the product is that of the initial triple,
    1. *)
Theorem report_no_prime_below (fuel : nat) (N : Z) (c : cache) :
  cache_inv c → 1 ≤ N ≤ 2 →
  (HIGHEST_CHECKED c = 1 → report fuel N c = Raise IndexError) ∧
  (2 ≤ HIGHEST_CHECKED c →
     report fuel N c = Ok ((-1, -1, -1), [], 1, c)).
Proof.
  intros Hinv HN.
  destruct (main_small_bound fuel N c Hinv HN) as [Hfresh Hwarm].
  unfold report. split; intros Hh.
  - by rewrite (Hfresh Hh).
  - by rewrite (Hwarm Hh).
Qed.

Lemma report_no_prime_below_witness :
  cache_inv init_cache ∧ 1 ≤ 1 ≤ 2 ∧
  (HIGHEST_CHECKED init_cache = 1 →
     report 0 1 init_cache = Raise IndexError) ∧
  (2 ≤ HIGHEST_CHECKED init_cache →
     report 0 1 init_cache = Ok ((-1, -1, -1), [], 1, init_cache)).
Proof.
  split; [apply cache_inv_init|]. split; [lia|].
  apply (report_no_prime_below 0 1 init_cache); [apply cache_inv_init|lia].
Defined.
